(** * go-macaron/binding: form binding and rule validation (binding.go)

    A shallow embedding of [binding.go]: the form walker [mapForm], the
    coercion [setWithProperType], the validator [validateStruct], the
    handlers [Validate], [Form], [MultipartForm] and [Json], the dispatch
    [bind] with [Bind] and [BindIgnErr], and [ErrorHandler], over a small
    model of the parts of Go's [reflect], [strconv], [strings],
    [unicode/utf8], [fmt] and [regexp] packages that the file calls.

    Conventions.
    - A Go [string] is a sequence of bytes: Rocq's [string] of [ascii].
    - A Go run-time panic is the [Panic] result of the [Result] monad.
    - A reflect.Value refers to the variable it was taken from: what a callee
      sets through it, the caller sees.  The model passes the value in and
      returns the value afterwards.
    - [Errors] is a Go slice.  A callee that is handed the slice by value and
      appends to it grows its own copy; its caller sees the longer list only
      where the callee returns it, as validateStruct does and mapForm and
      setWithProperType do not.
    - Floating point is outside the embedded fragment: the kinds [Float32]
      and [Float64] exist, no type that [validType] accepts has them, and
      the two ParseFloat branches of [setWithProperType] leave the field and
      the list alone in the model.
    - The flags of reflect.Value are those of the current reflect package,
      where an exported field of an unexported embedded struct can be set.
    - The decoder of encoding/json is no part of the package: the body of a
      request is kept by what the decoder makes of it ([Decoder]), and the
      payload that json.Marshal writes by the list it serialises. *)

From Stdlib Require Import ZArith Ascii String List Bool Lia DecimalString.
From stdpp Require Import base option list gmap strings.

Local Open Scope string_scope.
Local Open Scope Z_scope.
Set Warnings "-register-all".

(* ===================================================================== *)
(** ** Panics *)
(* ===================================================================== *)

(** The outcome of a Go call: a value, or a run-time panic with its text. *)
Inductive Result (A : Type) : Type :=
| Ok (a : A)
| Panic (msg : string).
Arguments Ok {A} a.
Arguments Panic {A} msg.

#[global] Instance Result_ret : MRet Result := fun _ a => Ok a.
#[global] Instance Result_bind : MBind Result := fun _ _ k r =>
  match r with
  | Ok a => k a
  | Panic m => Panic m
  end.

#[global] Instance Result_fmap : FMap Result := fun _ _ f r =>
  match r with
  | Ok a => Ok (f a)
  | Panic m => Panic m
  end.

(* ===================================================================== *)
(** ** Bytes and strings *)
(* ===================================================================== *)

Definition byteval (c : ascii) : Z := Z.of_N (N_of_ascii c).

Definition inRange (lo hi : Z) (c : ascii) : bool :=
  (lo <=? byteval c) && (byteval c <=? hi).

Definition isDigit (c : ascii) : bool := inRange 48 57 c.

(** len(s) *)
Definition len (s : string) : Z := Z.of_nat (String.length s).

(** strings.HasPrefix *)
Definition HasPrefix (s p : string) : bool := String.prefix p s.

(** s[lo:hi] on a string; Go panics unless 0 <= lo <= hi <= len(s). *)
Definition sliceString (s : string) (lo hi : Z) : Result string :=
  if (0 <=? lo) && (lo <=? hi) && (hi <=? len s)
  then Ok (String.substring (Z.to_nat lo) (Z.to_nat (hi - lo)) s)
  else Panic "slice bounds out of range".

(** strings.Split(s, sep) for a one-byte separator: the pieces between the
    separators, one more than there are separators. *)
Fixpoint splitAcc (sep : ascii) (s : string) (cur : string) : list string :=
  match s with
  | EmptyString => [String.rev cur]
  | String c s' =>
      if Ascii.eqb c sep
      then String.rev cur :: splitAcc sep s' EmptyString
      else splitAcc sep s' (String c cur)
  end.

Definition Split (s : string) (sep : ascii) : list string :=
  splitAcc sep s EmptyString.

(** strings.Contains(s, substr): [substr] starts at some index of [s]. *)
Fixpoint Contains (s substr : string) : bool :=
  HasPrefix s substr ||
  match s with
  | EmptyString => false
  | String _ s' => Contains s' substr
  end.

(* ===================================================================== *)
(** ** unicode/utf8 *)
(* ===================================================================== *)

(** utf8.RuneCountInString: the loop of the Go library, one rune per
    well-formed sequence and one per byte that starts none.  [accept lo hi]
    is the library's range for the second byte; continuation bytes are
    0x80..0xBF. *)
Definition isCont (c : ascii) : bool := inRange 128 191 c.

(** first[c]: the length of the sequence a lead byte announces and the range
    of its second byte; [None] for a byte that cannot start a sequence. *)
Definition first (c : ascii) : option (nat * Z * Z) :=
  let b := byteval c in
  if b <? 194 then None
  else if b <=? 223 then Some (2%nat, 128, 191)
  else if b =? 224 then Some (3%nat, 160, 191)
  else if b <=? 236 then Some (3%nat, 128, 191)
  else if b =? 237 then Some (3%nat, 128, 159)
  else if b <=? 239 then Some (3%nat, 128, 191)
  else if b =? 240 then Some (4%nat, 144, 191)
  else if b <=? 243 then Some (4%nat, 128, 191)
  else if b =? 244 then Some (4%nat, 128, 143)
  else None.

Fixpoint RuneCountInString (s : string) : Z :=
  match s with
  | EmptyString => 0
  | String c r0 =>
      if byteval c <? 128 then 1 + RuneCountInString r0
      else
        match first c with
        | None => 1 + RuneCountInString r0
        | Some (size, lo, hi) =>
            match r0 with
            | EmptyString => 1 + RuneCountInString r0
            | String c1 r1 =>
                if negb (inRange lo hi c1) then 1 + RuneCountInString r0
                else if Nat.eqb size 2 then 1 + RuneCountInString r1
                else
                  match r1 with
                  | EmptyString => 1 + RuneCountInString r0
                  | String c2 r2 =>
                      if negb (isCont c2) then 1 + RuneCountInString r0
                      else if Nat.eqb size 3 then 1 + RuneCountInString r2
                      else
                        match r2 with
                        | EmptyString => 1 + RuneCountInString r0
                        | String c3 r3 =>
                            if negb (isCont c3) then 1 + RuneCountInString r0
                            else 1 + RuneCountInString r3
                        end
                  end
            end
        end
  end.

(* ===================================================================== *)
(** ** strconv *)
(* ===================================================================== *)

Inductive NumError := ErrSyntax | ErrRange.

(** strconv.IntSize on the 64-bit platforms. *)
Definition IntSize : Z := 64.

(** The digit loop of strconv.ParseUint for base 10: [n] is the value so
    far, [cutoff] the first value whose tenfold overflows uint64, [maxVal]
    the largest value of the requested width.  The loop returns at the first
    byte that is no digit and at the first overflow. *)
Fixpoint parseDigits (maxVal : Z) (s : string) (n : Z) : Z * option NumError :=
  match s with
  | EmptyString => (n, None)
  | String c s' =>
      if isDigit c then
        let d := byteval c - 48 in
        if n >=? (2 ^ 64 - 1) / 10 + 1 then (maxVal, Some ErrRange)
        else
          let n1 := n * 10 + d in
          if n1 >? maxVal then (maxVal, Some ErrRange)
          else parseDigits maxVal s' n1
      else (0, Some ErrSyntax)
  end.

(** strconv.ParseUint(s, 10, bitSize) *)
Definition ParseUint (s : string) (bitSize : Z) : Z * option NumError :=
  match s with
  | EmptyString => (0, Some ErrSyntax)
  | _ =>
      let bitSize := if bitSize =? 0 then IntSize else bitSize in
      parseDigits (2 ^ bitSize - 1) s 0
  end.

(** strconv.ParseInt(s, 10, bitSize) *)
Definition ParseInt (s : string) (bitSize : Z) : Z * option NumError :=
  match s with
  | EmptyString => (0, Some ErrSyntax)
  | String c s' =>
      let neg := Ascii.eqb c "-" in
      let s1 := if Ascii.eqb c "+" || neg then s' else s in
      match ParseUint s1 bitSize with
      | (_, Some ErrSyntax) => (0, Some ErrSyntax)
      | (un, _) =>
          let bitSize := if bitSize =? 0 then IntSize else bitSize in
          let cutoff := 2 ^ (bitSize - 1) in
          if negb neg && (un >=? cutoff) then (cutoff - 1, Some ErrRange)
          else if neg && (un >? cutoff) then (- cutoff, Some ErrRange)
          else (if neg then - un else un, None)
      end
  end.

(** strconv.Atoi: ParseInt(s, 10, 0) converted to int; the library's fast
    path for short strings computes the same pair. *)
Definition Atoi (s : string) : Z * option NumError := ParseInt s 0.

(** strconv.ParseBool *)
Definition ParseBool (s : string) : option bool :=
  if existsb (String.eqb s) ["1"; "t"; "T"; "TRUE"; "true"; "True"] then Some true
  else if existsb (String.eqb s) ["0"; "f"; "F"; "FALSE"; "false"; "False"] then Some false
  else None.

(* ===================================================================== *)
(** ** regexp *)
(* ===================================================================== *)

(** The regular expressions of the four package patterns, over bytes.  Every
    class of the patterns is a set of ASCII bytes or the complement of one,
    so a search over bytes finds a match exactly when the search over runes
    of the Go library does. *)
Inductive regex :=
| Fail
| Eps
| Class (p : ascii -> bool)
| Cat (r1 r2 : regex)
| Alt (r1 r2 : regex)
| Star (r : regex).

Definition Plus (r : regex) : regex := Cat r (Star r).
Definition Opt (r : regex) : regex := Alt r Eps.
Definition Chr (c : ascii) : regex := Class (Ascii.eqb c).

Fixpoint Lit (s : string) : regex :=
  match s with
  | EmptyString => Eps
  | String c s' => Cat (Chr c) (Lit s')
  end.

Fixpoint nullable (r : regex) : bool :=
  match r with
  | Fail => false
  | Eps => true
  | Class _ => false
  | Cat r1 r2 => nullable r1 && nullable r2
  | Alt r1 r2 => nullable r1 || nullable r2
  | Star _ => true
  end.

Definition isFail (r : regex) : bool :=
  match r with Fail => true | _ => false end.

Definition mkCat (r1 r2 : regex) : regex :=
  match r1, r2 with
  | Fail, _ => Fail
  | _, Fail => Fail
  | Eps, _ => r2
  | _, _ => Cat r1 r2
  end.

Definition mkAlt (r1 r2 : regex) : regex :=
  match r1, r2 with
  | Fail, _ => r2
  | _, Fail => r1
  | _, _ => Alt r1 r2
  end.

(** The residual of [r] after the byte [c]. *)
Fixpoint deriv (c : ascii) (r : regex) : regex :=
  match r with
  | Fail => Fail
  | Eps => Fail
  | Class p => if p c then Eps else Fail
  | Cat r1 r2 =>
      mkAlt (mkCat (deriv c r1) r2) (if nullable r1 then deriv c r2 else Fail)
  | Alt r1 r2 => mkAlt (deriv c r1) (deriv c r2)
  | Star r1 => mkCat (deriv c r1) (Star r1)
  end.

(** Some prefix of [s] is in the language of [r]. *)
Fixpoint matchPrefix (r : regex) (s : string) : bool :=
  nullable r ||
  match s with
  | EmptyString => false
  | String c s' => if isFail r then false else matchPrefix (deriv c r) s'
  end.

(** Regexp.MatchString: some substring of [s] is in the language. *)
Fixpoint MatchString (r : regex) (s : string) : bool :=
  matchPrefix r s ||
  match s with
  | EmptyString => false
  | String _ s' => MatchString r s'
  end.

Fixpoint memString (set : string) (c : ascii) : bool :=
  match set with
  | EmptyString => false
  | String d set' => Ascii.eqb c d || memString set' c
  end.

(** \d and \w *)
Definition perlDigit (c : ascii) : bool := inRange 48 57 c.
Definition perlWord (c : ascii) : bool :=
  inRange 48 57 c || inRange 65 90 c || inRange 97 122 c || Ascii.eqb c "_".

(** The class that excludes \d, \w, the dash and the underscore. *)
Definition alphaDashPattern : regex :=
  Class (fun c => negb (perlDigit c || perlWord c || memString "-_" c)).

(** The same class, which excludes the dot as well. *)
Definition alphaDashDotPattern : regex :=
  Class (fun c => negb (perlDigit c || perlWord c || memString "-_." c)).

(** The e-mail pattern: one or more atoms (runs of \w and of the bytes of
    the string below) joined by dots, an at sign, one or more labels
    (\w, or \w [\w-]* \w) each followed by a dot, and a last label that
    starts with a letter or a digit. *)
Definition emailPattern : regex :=
  let atom := Class (fun c => perlWord c || memString "!#$%&'*+/=?^_`{|}~-" c) in
  let w := Class perlWord in
  let wd := Class (fun c => perlWord c || Ascii.eqb c "-") in
  let alnum := Class (fun c => inRange 97 122 c || inRange 65 90 c || inRange 48 57 c) in
  Cat (Plus atom)
  (Cat (Star (Cat (Chr ".") (Plus atom)))
  (Cat (Chr "@")
  (Cat (Plus (Cat w (Cat (Opt (Cat (Star wd) w)) (Chr "."))))
  (Cat alnum (Opt (Cat (Star wd) w)))))).

(** The URL pattern: http or https, a colon and two slashes, a run of host
    bytes (\w, dash, underscore), one or more groups of a dot and such a
    run, and optionally a tail of the bytes of [mid] that ends in a byte of
    [last]. *)
Definition urlPattern : regex :=
  let host := Class (fun c => perlWord c || memString "-_" c) in
  let mid := Class (fun c => perlWord c || memString "-.,@?^=%&amp;:/~+#" c) in
  let last := Class (fun c => perlWord c || memString "-@?^=%&amp;/~+#" c) in
  Cat (Alt (Lit "http") (Lit "https"))
  (Cat (Lit "://")
  (Cat (Plus host)
  (Cat (Plus (Cat (Chr ".") (Plus host)))
       (Opt (Cat (Star mid) last))))).


(* ===================================================================== *)
(** ** reflect: kinds, types and values *)
(* ===================================================================== *)

Module reflect.
(** reflect.Kind, the kinds binding.go tests for. *)
Inductive Kind :=
| Bool
| Int | Int8 | Int16 | Int32 | Int64
| Uint | Uint8 | Uint16 | Uint32 | Uint64
| Float32 | Float64
| String
| Slice
| Struct
| Ptr.
End reflect.

#[global] Instance Kind_eq_dec : EqDecision reflect.Kind.
Proof. solve_decision. Defined.

(** reflect.StructTag, already cut into its key:"value" pairs. *)
Definition StructTag := list (string * string).

(** StructTag.Get: the value of the first pair with the key, or "". *)
Fixpoint Get (tag : StructTag) (key : string) : string :=
  match tag with
  | [] => ""
  | (k, v) :: tag' => if String.eqb k key then v else Get tag' key
  end.

(** reflect.StructField; [PkgPath] is empty exactly for exported fields. *)
Record StructField (T : Type) := mkField {
  Name : string;
  PkgPath : string;
  Typ : T;
  Tag : StructTag;
  Anonymous : bool
}.
Arguments mkField {T}.
Arguments Name {T}.
Arguments PkgPath {T}.
Arguments Typ {T}.
Arguments Tag {T}.
Arguments Anonymous {T}.

(** reflect.Type for the types the binder handles: the basic kinds, slices,
    pointers and named structs. *)
Inductive rtype :=
| TBasic (k : reflect.Kind)
| TSlice (elem : rtype)
| TPtr (elem : rtype)
| TStruct (name : string) (fields : list (StructField rtype)).

(** Type.Kind *)
Definition Kind (t : rtype) : reflect.Kind :=
  match t with
  | TBasic k => k
  | TSlice _ => reflect.Slice
  | TPtr _ => reflect.Ptr
  | TStruct _ _ => reflect.Struct
  end.

(** A value as reflect.Value sees it.  An integer carries its kind, a nil
    slice differs from an empty one, a pointer is nil or holds its target. *)
Inductive Value :=
| VBool (b : bool)
| VInt (k : reflect.Kind) (n : Z)
| VUint (k : reflect.Kind) (n : Z)
| VString (s : string)
| VNilSlice
| VSlice (elems : list Value)
| VNilPtr
| VPtr (target : Value)
| VStruct (fields : list Value).

(** reflect.Zero(t).  (A basic type of a kind outside the fragment, which
    [validType] rejects, gets an integer zero.) *)
Fixpoint Zero (t : rtype) : Value :=
  match t with
  | TBasic reflect.Bool => VBool false
  | TBasic reflect.String => VString ""
  | TBasic ((reflect.Uint | reflect.Uint8 | reflect.Uint16 | reflect.Uint32
             | reflect.Uint64) as k) => VUint k 0
  | TBasic k => VInt k 0
  | TSlice _ => VNilSlice
  | TPtr _ => VNilPtr
  | TStruct _ fields => VStruct (map (fun f => Zero (Typ f)) fields)
  end.

(** reflect.New(t): a pointer to a fresh zero value. *)
Definition New (t : rtype) : Value := VPtr (Zero t).

(** reflect.DeepEqual on two values of one type: structural equality, with a
    nil slice different from an empty one and pointers compared through
    their targets. *)
Fixpoint DeepEqual (x y : Value) : bool :=
  match x, y with
  | VBool a, VBool b => Bool.eqb a b
  | VInt k a, VInt k' b => bool_decide (k = k') && (a =? b)
  | VUint k a, VUint k' b => bool_decide (k = k') && (a =? b)
  | VString a, VString b => String.eqb a b
  | VNilSlice, VNilSlice => true
  | VSlice xs, VSlice ys =>
      (fix all2 (xs ys : list Value) : bool :=
         match xs, ys with
         | [], [] => true
         | a :: xs', b :: ys' => DeepEqual a b && all2 xs' ys'
         | _, _ => false
         end) xs ys
  | VNilPtr, VNilPtr => true
  | VPtr a, VPtr b => DeepEqual a b
  | VStruct xs, VStruct ys =>
      (fix all2 (xs ys : list Value) : bool :=
         match xs, ys with
         | [], [] => true
         | a :: xs', b :: ys' => DeepEqual a b && all2 xs' ys'
         | _, _ => false
         end) xs ys
  | _, _ => false
  end.

(** The read-only flags of a reflect.Value: [stickyRO] marks a value reached
    through an unexported named field and is inherited by its fields,
    [embedRO] marks an unexported embedded field itself. *)
Record flag := mkFlag { stickyRO : bool; embedRO : bool }.

Definition flagNone : flag := mkFlag false false.

(** The flags of v.Field(i), from the flags of v. *)
Definition fieldFlag (parent : flag) (f : StructField rtype) : flag :=
  if String.eqb (PkgPath f) "" then mkFlag (stickyRO parent) false
  else if Anonymous f then mkFlag (stickyRO parent) true
  else mkFlag true false.

Definition isRO (fl : flag) : bool := stickyRO fl || embedRO fl.

(** Value.CanSet, for the addressable values the binder walks, and
    Value.CanInterface. *)
Definition CanSet (fl : flag) : bool := negb (isRO fl).
Definition CanInterface (fl : flag) : bool := negb (isRO fl).

(** The width in bits of an integer kind. *)
Definition bitsOf (k : reflect.Kind) : Z :=
  match k with
  | reflect.Int8 | reflect.Uint8 => 8
  | reflect.Int16 | reflect.Uint16 => 16
  | reflect.Int32 | reflect.Uint32 => 32
  | reflect.Int64 | reflect.Uint64 => 64
  | _ => IntSize
  end.

(** The conversions intN(x) and uintN(x) of a 64-bit value. *)
Definition wrapSigned (bits x : Z) : Z :=
  (x + 2 ^ (bits - 1)) mod 2 ^ bits - 2 ^ (bits - 1).
Definition wrapUnsigned (bits x : Z) : Z := x mod 2 ^ bits.

(** Value.SetInt, SetUint, SetBool and SetString panic on a value of another
    kind. *)
Definition SetInt (v : Value) (x : Z) : Result Value :=
  match v with
  | VInt k _ => Ok (VInt k (wrapSigned (bitsOf k) x))
  | _ => Panic "reflect: call of reflect.Value.SetInt on a value of another kind"
  end.

Definition SetUint (v : Value) (x : Z) : Result Value :=
  match v with
  | VUint k _ => Ok (VUint k (wrapUnsigned (bitsOf k) x))
  | _ => Panic "reflect: call of reflect.Value.SetUint on a value of another kind"
  end.

Definition SetBool (v : Value) (x : bool) : Result Value :=
  match v with
  | VBool _ => Ok (VBool x)
  | _ => Panic "reflect: call of reflect.Value.SetBool on a value of another kind"
  end.

Definition SetString (v : Value) (x : string) : Result Value :=
  match v with
  | VString _ => Ok (VString x)
  | _ => Panic "reflect: call of reflect.Value.SetString on a value of another kind"
  end.

(** v.Field(i) of a struct value. *)
Definition Field (vs : list Value) (i : nat) : Result Value :=
  match vs !! i with
  | Some x => Ok x
  | None => Panic "reflect: Field index out of range"
  end.

(** Decidable identity of types ([==] on reflect.Type). *)
Definition tag_eqb (a b : StructTag) : bool :=
  bool_decide (a = b).

Fixpoint rtype_eqb (a b : rtype) : bool :=
  match a, b with
  | TBasic k, TBasic k' => bool_decide (k = k')
  | TSlice x, TSlice y => rtype_eqb x y
  | TPtr x, TPtr y => rtype_eqb x y
  | TStruct n fs, TStruct n' fs' =>
      String.eqb n n' &&
      (fix all2 (fs fs' : list (StructField rtype)) : bool :=
         match fs, fs' with
         | [], [] => true
         | f :: r, f' :: r' =>
             String.eqb (Name f) (Name f') && String.eqb (PkgPath f) (PkgPath f')
             && tag_eqb (Tag f) (Tag f') && Bool.eqb (Anonymous f) (Anonymous f')
             && rtype_eqb (Typ f) (Typ f') && all2 r r'
         | _, _ => false
         end) fs fs'
  | _, _ => false
  end.

(* ===================================================================== *)
(** ** fmt *)
(* ===================================================================== *)

Definition itoa (n : Z) : string :=
  DecimalString.NilZero.string_of_int (Z.to_int n).

Fixpoint joinWith (sep : string) (l : list string) : string :=
  match l with
  | [] => ""
  | [x] => x
  | x :: l' => x ++ sep ++ joinWith sep l'
  end.

(** The text fmt prints for a pointer it does not follow.  The address
    differs from run to run; every address prints as 0x and hexadecimal
    digits, which is all the patterns of this package can tell. *)
Definition pointerText : string := "0xc000010000".

(** fmt.Sprintf("%v", v) at nesting depth [depth]: a pointer to a struct or
    a slice is followed at depth 0 only. *)
Fixpoint printValue (depth : nat) (v : Value) : string :=
  match v with
  | VBool b => if b then "true" else "false"
  | VInt _ n => itoa n
  | VUint _ n => itoa n
  | VString s => s
  | VNilSlice => "[]"
  | VSlice l => "[" ++ joinWith " " (map (printValue (S depth)) l) ++ "]"
  | VNilPtr => "<nil>"
  | VPtr x =>
      match depth, x with
      | O, (VStruct _ | VSlice _ | VNilSlice) => "&" ++ printValue 1 x
      | _, _ => pointerText
      end
  | VStruct l => "{" ++ joinWith " " (map (printValue (S depth)) l) ++ "}"
  end.

Definition Sprintf_v (v : Value) : string := printValue 0 v.

(* ===================================================================== *)
(** ** Errors *)
(* ===================================================================== *)

(** Modelled from the spec: the classification tags of errors.go, which is
    not among the sources.  binding.go names them by these constants; the
    spec lists the taxonomy (deserialization, content-type, required,
    integer-type, boolean-type, float-type, the rule tags, and tags chosen
    by validation hooks). *)
Inductive Classification :=
| RequiredError
| ContentTypeError
| DeserializationError
| IntegerTypeError
| BooleanTypeError
| FloatTypeError
| AlphaDashError
| AlphaDashDotError
| MinSizeError
| MaxSizeError
| EmailError
| UrlError
| CustomError (tag : string).

#[global] Instance Classification_eq_dec : EqDecision Classification.
Proof. solve_decision. Defined.

(** Modelled from the spec: the Error record of errors.go (its three fields
    are the ones the tests of the package build). *)
Record Error := mkError {
  FieldNames : list string;
  Class_ : Classification;
  Message : string
}.

#[global] Instance Error_eq_dec : EqDecision Error.
Proof. solve_decision. Defined.

(** Errors is a Go slice of Error (binding.go appends to it and takes its
    length). *)
Abbreviation Errors := (list Error).

(** Modelled from the spec: Errors.Add appends one error to the receiver.
    The receiver is the caller's own variable: a function that was handed
    the slice by value grows its copy, not the list of whoever called it. *)
Definition Add (errors : Errors) (fieldNames : list string)
    (classification : Classification) (message : string) : Errors :=
  (errors ++ [mkError fieldNames classification message])%list.

(** Modelled from the spec: Errors.Has tells whether the list holds an error
    of the classification. *)
Definition Has (errors : Errors) (class : Classification) : bool :=
  existsb (λ e, bool_decide (Class_ e = class)) errors.

(* ===================================================================== *)
(** ** setWithProperType *)
(* ===================================================================== *)



(** setWithProperType(valueKind, val, structField, nameInTag, errors).
    The Go function returns nothing.  The result of the model is the state
    of its two variables when it returns: the field it was handed, which it
    shares with its caller through reflect.Value, and [errors], its copy of
    the slice, which it shares with nobody. *)
Definition setWithProperType (valueKind : reflect.Kind) (val : string)
    (structField : Value) (nameInTag : string) (errors : Errors)
    : Result (Value * Errors) :=
  match valueKind with
  | reflect.Int | reflect.Int8 | reflect.Int16 | reflect.Int32 | reflect.Int64 =>
      let val := if String.eqb val "" then "0" else val in
      match ParseInt val 64 with
      | (_, Some _) =>
          Ok (structField,
              Add errors [nameInTag] IntegerTypeError "Value could not be parsed as integer")
      | (intVal, None) =>
          f ← SetInt structField intVal; Ok (f, errors)
      end
  | reflect.Uint | reflect.Uint8 | reflect.Uint16 | reflect.Uint32 | reflect.Uint64 =>
      let val := if String.eqb val "" then "0" else val in
      match ParseUint val 64 with
      | (_, Some _) =>
          Ok (structField,
              Add errors [nameInTag] IntegerTypeError
                "Value could not be parsed as unsigned integer")
      | (uintVal, None) =>
          f ← SetUint structField uintVal; Ok (f, errors)
      end
  | reflect.Bool =>
      if String.eqb val "on" then
        f ← SetBool structField true; Ok (f, errors)
      else
        let val := if String.eqb val "" then "false" else val in
        match ParseBool val with
        | None =>
            Ok (structField,
                Add errors [nameInTag] BooleanTypeError "Value could not be parsed as boolean")
        | Some true => f ← SetBool structField true; Ok (f, errors)
        | Some false => Ok (structField, errors)
        end
  | reflect.Float32 | reflect.Float64 => Ok (structField, errors)
  | reflect.String =>
      f ← SetString structField val; Ok (f, errors)
  | _ => Ok (structField, errors)
  end.

(* ===================================================================== *)
(** ** mapForm *)
(* ===================================================================== *)

(** multipart.FileHeader, an opaque handle to the binder.  Of its fields the
    model keeps the file name; the others carry no tag and hold no struct, so
    neither the walker nor the validator does anything with them. *)
Record FileHeader := mkFileHeader { Filename : string }.

Definition FileHeaderType : rtype :=
  TStruct "multipart.FileHeader"
    [mkField "Filename" "" (TBasic reflect.String) [] false].

(** reflect.TypeOf(( *multipart.FileHeader)(nil)) *)
Definition fhType : rtype := TPtr FileHeaderType.

(** reflect.ValueOf(h) for a handle h of the file map. *)
Definition ValueOfFile (h : FileHeader) : Value :=
  VPtr (VStruct [VString (Filename h)]).

(** Type.Elem *)
Definition Elem (t : rtype) : Result rtype :=
  match t with
  | TSlice e | TPtr e => Ok e
  | _ => Panic "reflect: Elem of invalid type"
  end.

(** inputValue[i] *)
Definition index {A} (l : list A) (i : nat) : Result A :=
  match l !! i with
  | Some x => Ok x
  | None => Panic "index out of range"
  end.

(** The loop of lines 320-322: element i of the fresh slice is set from raw
    value i.  What setWithProperType appended to its copy of [errors] is
    gone when it returns. *)
Fixpoint fillSlice (sliceOf : reflect.Kind) (inputValue : list string) (i : nat)
    (slice : list Value) (inputFieldName : string) (errors : Errors)
    : Result (list Value) :=
  match inputValue with
  | [] => Ok slice
  | raw :: rest =>
      x ← index slice i;
      '(x', _) ← setWithProperType sliceOf raw x inputFieldName errors;
      fillSlice sliceOf rest (S i) (<[i := x']> slice) inputFieldName errors
  end.

(** Lines 309-344: the branch of the loop of mapForm for a field that is
    neither an embedded pointer nor a struct.  The result is the field
    afterwards. *)
Definition mapFormLeaf (typeField : StructField rtype) (structField : Value)
    (fl : flag) (form : gmap string (list string))
    (formfile : gmap string (list FileHeader)) (errors : Errors) : Result Value :=
  let inputFieldName := Get (Tag typeField) "form" in
  if String.eqb inputFieldName "" then Ok structField
  else if negb (CanSet fl) then Ok structField
  else
    match form !! inputFieldName with
    | Some inputValue =>
        let numElems := length inputValue in
        if bool_decide (Kind (Typ typeField) = reflect.Slice) && (0 <? numElems)%nat then
          elemT ← Elem (Typ typeField);
          let sliceOf := Kind elemT in
          slice ← fillSlice sliceOf inputValue 0 (replicate numElems (Zero elemT))
                    inputFieldName errors;
          Ok (VSlice slice)
        else
          raw ← index inputValue 0;
          '(f, _) ← setWithProperType (Kind (Typ typeField)) raw structField
                      inputFieldName errors;
          Ok f
    | None =>
        match formfile !! inputFieldName with
        | None => Ok structField
        | Some inputFile =>
            let numElems := length inputFile in
            if bool_decide (Kind (Typ typeField) = reflect.Slice) && (0 <? numElems)%nat
               && match Elem (Typ typeField) with
                  | Ok e => rtype_eqb e fhType
                  | Panic _ => false
                  end
            then Ok (VSlice (map ValueOfFile inputFile))
            else if rtype_eqb (Typ typeField) fhType then
              h ← index inputFile 0; Ok (ValueOfFile h)
            else Ok structField
        end
    end.

(** The body of the loop of mapForm (lines 298-345) for the field
    [typeField], whose value is [structField] and whose flags are [ffl]; the
    result is the field afterwards.  [rec] is mapForm itself. *)
Definition mapFormField (rec : rtype → Value → flag → Result Value)
    (form : gmap string (list string)) (formfile : gmap string (list FileHeader))
    (errors : Errors) (typeField : StructField rtype) (structField : Value)
    (ffl : flag) : Result Value :=
  match Typ typeField with
  | TPtr elem =>
      if Anonymous typeField then
        if isRO ffl then
          Panic "reflect: reflect.Value.Set using value obtained using unexported field"
        else
          inner ← rec elem (Zero elem) flagNone;
          if DeepEqual inner (Zero elem) then Ok VNilPtr else Ok (VPtr inner)
      else mapFormLeaf typeField structField ffl form formfile errors
  | TStruct _ _ => rec (Typ typeField) structField ffl
  | _ => mapFormLeaf typeField structField ffl form formfile errors
  end.

(** The loop of mapForm over the fields of a struct type; [vs] are the
    fields of formStruct, updated in place, and [fl] its flags. *)
Definition mapFormFields (rec : rtype → Value → flag → Result Value)
    (form : gmap string (list string)) (formfile : gmap string (list FileHeader))
    (errors : Errors) :=
  fix loop (fields : list (StructField rtype)) (i : nat) (fl : flag)
      (vs : list Value) {struct fields} : Result (list Value) :=
    match fields with
    | [] => Ok vs
    | typeField :: rest =>
        structField ← Field vs i;
        new ← mapFormField rec form formfile errors typeField structField
                (fieldFlag fl typeField);
        loop rest (S i) fl (<[i := new]> vs)
    end.

(** mapForm(formStruct, form, formfile, errors), for formStruct of type
    [typ] and flags [fl].  The Go function returns nothing and works on
    formStruct in place; the model returns formStruct afterwards.  It never
    appends to [errors] itself and hands its callees copies. *)
Fixpoint mapForm (typ : rtype) (formStruct : Value) (fl : flag)
    (form : gmap string (list string)) (formfile : gmap string (list FileHeader))
    (errors : Errors) {struct typ} : Result Value :=
  match typ with
  | TPtr (TStruct _ fields) =>
      match formStruct with
      | VPtr (VStruct vs) =>
          vs' ← mapFormFields (fun t v f => mapForm t v f form formfile errors)
                  form formfile errors fields 0 fl vs;
          Ok (VPtr (VStruct vs'))
      | _ => Panic "reflect: call of reflect.Value.Type on zero Value"
      end
  | TStruct _ fields =>
      match formStruct with
      | VStruct vs =>
          vs' ← mapFormFields (fun t v f => mapForm t v f form formfile errors)
                  form formfile errors fields 0 fl vs;
          Ok (VStruct vs')
      | _ => Panic "reflect: call of reflect.Value.Field on a value of another kind"
      end
  | _ => Panic "reflect: NumField of non-struct type"
  end.

(* ===================================================================== *)
(** ** validateStruct *)
(* ===================================================================== *)

(** Value.Kind and Value.Len of a field value. *)
Definition isSliceValue (v : Value) : bool :=
  match v with
  | VNilSlice | VSlice _ => true
  | _ => false
  end.

Definition Len (v : Value) : Z :=
  match v with
  | VSlice l => Z.of_nat (length l)
  | _ => 0
  end.

(** str, ok := fieldValue.(string); ok && p(str) *)
Definition assertString (fieldValue : Value) (p : string → bool) : bool :=
  match fieldValue with
  | VString str => p str
  | _ => false
  end.

(** The body of the loop over the rules of one field (lines 227-282).  The
    switch is the last statement of the body, so its [break]s and the two
    [continue]s all lead to the next rule; [errors] is the variable that
    validateStruct returns in the end. *)
Definition matchRule (field : StructField rtype) (zero fieldValue : Value)
    (errors : Errors) (rule : string) : Result Errors :=
  if len rule =? 0 then Ok errors
  else if String.eqb rule "Required" then
    if DeepEqual zero fieldValue
    then Ok (Add errors [Name field] RequiredError "Required")
    else Ok errors
  else if String.eqb rule "AlphaDash" then
    if MatchString alphaDashPattern (Sprintf_v fieldValue)
    then Ok (Add errors [Name field] AlphaDashError "AlphaDash")
    else Ok errors
  else if String.eqb rule "AlphaDashDot" then
    if MatchString alphaDashDotPattern (Sprintf_v fieldValue)
    then Ok (Add errors [Name field] AlphaDashDotError "AlphaDashDot")
    else Ok errors
  else if HasPrefix rule "MinSize(" then
    arg ← sliceString rule 8 (len rule - 1);
    let min := fst (Atoi arg) in
    if assertString fieldValue (fun str => RuneCountInString str <? min)
    then Ok (Add errors [Name field] MinSizeError "MinSize")
    else if isSliceValue fieldValue && (Len fieldValue <? min)
    then Ok (Add errors [Name field] MinSizeError "MinSize")
    else Ok errors
  else if HasPrefix rule "MaxSize(" then
    arg ← sliceString rule 8 (len rule - 1);
    let max := fst (Atoi arg) in
    if assertString fieldValue (fun str => RuneCountInString str >? max)
    then Ok (Add errors [Name field] MaxSizeError "MaxSize")
    else if isSliceValue fieldValue && (Len fieldValue >? max)
    then Ok (Add errors [Name field] MaxSizeError "MaxSize")
    else Ok errors
  else if String.eqb rule "Email" then
    if negb (MatchString emailPattern (Sprintf_v fieldValue))
    then Ok (Add errors [Name field] EmailError "Email")
    else Ok errors
  else if String.eqb rule "Url" then
    let str := Sprintf_v fieldValue in
    if len str =? 0 then Ok errors
    else if negb (MatchString urlPattern str)
    then Ok (Add errors [Name field] UrlError "Url")
    else Ok errors
  else Ok errors.

(** for _, rule := range rules *)
Fixpoint matchRules (field : StructField rtype) (zero fieldValue : Value)
    (rules : list string) (errors : Errors) : Result Errors :=
  match rules with
  | [] => Ok errors
  | rule :: rest =>
      errors ← matchRule field zero fieldValue errors rule;
      matchRules field zero fieldValue rest errors
  end.

(** val.Field(i), where [val] is [None] for the zero Value that Elem gives
    for a nil pointer. *)
Definition FieldOf (val : option (list Value)) (i : nat) : Result Value :=
  match val with
  | Some vs => Field vs i
  | None => Panic "reflect: call of reflect.Value.Field on zero Value"
  end.

(** The loop of validateStruct over the fields of a struct type; [rec] is
    validateStruct itself. *)
Definition validateFields (rec : Errors → rtype → Value → Result Errors) :=
  fix loop (fields : list (StructField rtype)) (i : nat)
      (val : option (list Value)) (errors : Errors) {struct fields}
      : Result Errors :=
    match fields with
    | [] => Ok errors
    | field :: rest =>
        if String.eqb (Get (Tag field) "form") "-" then loop rest (S i) val errors
        else
          fieldValue ← FieldOf val i;
          if negb (CanInterface (fieldFlag flagNone field))
          then loop rest (S i) val errors
          else
            let zero := Zero (Typ field) in
            errors ←
              match Typ field with
              | TStruct _ _ => rec errors (Typ field) fieldValue
              | TPtr elem =>
                  if negb (DeepEqual zero fieldValue)
                     && bool_decide (Kind elem = reflect.Struct)
                  then rec errors (Typ field) fieldValue
                  else Ok errors
              | _ => Ok errors
              end;
            errors ← matchRules field zero fieldValue
                       (Split (Get (Tag field) "binding") ";") errors;
            loop rest (S i) val errors
    end.

(** validateStruct(errors, obj), for obj of dynamic type [typ]. *)
Fixpoint validateStruct (errors : Errors) (typ : rtype) (val : Value)
    {struct typ} : Result Errors :=
  match typ with
  | TPtr (TStruct _ fields) =>
      validateFields validateStruct fields 0
        match val with
        | VPtr (VStruct vs) => Some vs
        | _ => None
        end errors
  | TStruct _ fields =>
      validateFields validateStruct fields 0
        match val with
        | VStruct vs => Some vs
        | _ => None
        end errors
  | _ => Panic "reflect: NumField of non-struct type"
  end.

(* ===================================================================== *)
(** ** Validate and the entry points *)
(* ===================================================================== *)

(** The Validate method of a type that implements Validator, with the
    request context fixed. *)
Definition Validator := Value → Errors → Errors.

(** if validator, ok := e.(Validator); ok { errors = validator.Validate(ctx, errors) } *)
Definition callValidator (validators : rtype → option Validator) (typ : rtype)
    (e : Value) (errors : Errors) : Errors :=
  match validators typ with
  | Some validate => validate e errors
  | None => errors
  end.

(** The loop of lines 173-179 over the elements of a slice of type
    []elemT. *)
Fixpoint validateElems (validators : rtype → option Validator) (elemT : rtype)
    (elems : list Value) (errors : Errors) : Result Errors :=
  match elems with
  | [] => Ok errors
  | e :: rest =>
      errors ← validateStruct errors elemT e;
      validateElems validators elemT rest (callValidator validators elemT e errors)
  end.

(** Validate(obj)(ctx): the list that the handler maps into the context.
    [validators] is the method table: the Validate method of each type that
    has one. *)
Definition Validate (validators : rtype → option Validator) (typ : rtype)
    (obj : Value) : Result Errors :=
  let errors : Errors := [] in
  let v : option (rtype * Value) :=
    match typ, obj with
    | TPtr elemT, VPtr x => Some (elemT, x)
    | TPtr _, _ => None
    | _, _ => Some (typ, obj)
    end in
  match v with
  | Some (TSlice elemT, VSlice elems) => validateElems validators elemT elems errors
  | Some (TSlice elemT, _) => validateElems validators elemT [] errors
  | _ =>
      errors ← validateStruct errors typ obj;
      Ok (callValidator validators typ obj errors)
  end.

(** ensureNotPointer *)
Definition ensureNotPointer (typ : rtype) : Result unit :=
  if bool_decide (Kind typ = reflect.Ptr)
  then Panic "Pointers are not accepted as binding models"
  else Ok tt.

(** validateAndMap(obj, ctx, errors): the struct and the list that end up
    mapped into the context. *)
Definition validateAndMap (validators : rtype → option Validator) (typ : rtype)
    (obj : Value) (errors : Errors) : Result (Value * Errors) :=
  validated ← Validate validators (TPtr typ) obj;
  let errors := (errors ++ validated)%list in
  match obj with
  | VPtr x => Ok (x, errors)
  | _ => Panic "reflect: call of reflect.Value.Elem on zero Value"
  end.

(** The request as the handlers read it: the form ParseForm leaves in
    Req.Form and its error; Req.MultipartForm if some earlier handler parsed
    it; the outcome of Req.MultipartReader (an error, or a reader) and of
    ReadForm on that reader (the form, nil on failure, and its error). *)
Record multipart_Form := mkMultipart {
  Value_ : gmap string (list string);
  File : gmap string (list FileHeader)
}.

Record Request := mkRequest {
  ReqForm : gmap string (list string);
  ParseForm : option string;
  MultipartForm_ : option multipart_Form;
  MultipartReader : string + (option multipart_Form * option string)
}.

(** Form(formStruct)(ctx), for formStruct of type [typ]. *)
Definition Form (validators : rtype → option Validator) (typ : rtype)
    (req : Request) : Result (Value * Errors) :=
  let errors : Errors := [] in
  _ ← ensureNotPointer typ;
  let formStruct := New typ in
  let errors :=
    match ParseForm req with
    | Some parseErr => Add errors [] DeserializationError parseErr
    | None => errors
    end in
  formStruct ← mapForm (TPtr typ) formStruct flagNone (ReqForm req) ∅ errors;
  validateAndMap validators typ formStruct errors.

(** MultipartForm(formStruct)(ctx) *)
Definition MultipartForm (validators : rtype → option Validator) (typ : rtype)
    (req : Request) : Result (Value * Errors) :=
  let errors : Errors := [] in
  _ ← ensureNotPointer typ;
  let formStruct := New typ in
  let '(errors, multipartForm) :=
    match MultipartForm_ req with
    | Some f => (errors, Some f)
    | None =>
        match MultipartReader req with
        | inl err => (Add errors [] DeserializationError err, None)
        | inr (form, Some parseErr) =>
            (Add errors [] DeserializationError parseErr, form)
        | inr (form, None) => (errors, form)
        end
    end in
  match multipartForm with
  | None => Panic "runtime error: invalid memory address or nil pointer dereference"
  | Some f =>
      formStruct ← mapForm (TPtr typ) formStruct flagNone (Value_ f) (File f) errors;
      validateAndMap validators typ formStruct errors
  end.

(** The error of Decoder.Decode, where it is not nil: io.EOF, or another
    error with its text. *)
Inductive DecodeError :=
| EOF
| DecodeFailed (text : string).

(** json.NewDecoder(body).Decode(ptr), as the handler sees it.  The decoder
    belongs to encoding/json; the body of a request is kept by what the
    decoder makes of it: for the type and the value behind the pointer, the
    value it leaves there and the error it returns. *)
Definition Decoder := rtype → Value → Value * option DecodeError.

(** The request as [bind] and [Json] read it: the method, the Content-Type
    header, the body (nil, or what the decoder makes of it), and the parts
    the form handlers read. *)
Record HttpRequest := mkHttpRequest {
  Method : string;
  ContentType : string;
  Body : option Decoder;
  Req : Request
}.

(** Json(jsonStruct)(ctx), for jsonStruct of type [typ]. *)
Definition Json (validators : rtype → option Validator) (typ : rtype)
    (req : HttpRequest) : Result (Value * Errors) :=
  let errors : Errors := [] in
  _ ← ensureNotPointer typ;
  let jsonStruct := New typ in
  let '(jsonStruct, errors) :=
    match Body req with
    | Some decode =>
        let '(decoded, err) := decode typ (Zero typ) in
        (VPtr decoded,
         match err with
         | Some (DecodeFailed text) => Add errors [] DeserializationError text
         | _ => errors
         end)
    | None => (jsonStruct, errors)
    end in
  validateAndMap validators typ jsonStruct errors.

(** ctx.Invoke(h) for one of the three handlers: the struct and the list it
    maps into the context. *)
Definition invoke (h : Result (Value * Errors)) : Result (option Value * Errors) :=
  '(v, errors) ← h; Ok (Some v, errors).

(** bind(ctx, obj): what is mapped into the context afterwards, the bound
    struct (none where no handler ran) and the list of errors. *)
Definition bind (validators : rtype → option Validator) (typ : rtype)
    (req : HttpRequest) : Result (option Value * Errors) :=
  let contentType := ContentType req in
  if String.eqb (Method req) "POST" || String.eqb (Method req) "PUT"
     || negb (String.eqb contentType "")
  then
    if Contains contentType "form-urlencoded" then
      invoke (Form validators typ (Req req))
    else if Contains contentType "multipart/form-data" then
      invoke (MultipartForm validators typ (Req req))
    else if Contains contentType "json" then
      invoke (Json validators typ req)
    else
      let errors : Errors := [] in
      let errors :=
        if String.eqb contentType ""
        then Add errors [] ContentTypeError "Empty Content-Type"
        else Add errors [] ContentTypeError "Unsupported Content-Type" in
      Ok (None, errors)
  else invoke (Form validators typ (Req req)).

(** BindIgnErr(obj)(ctx) *)
Definition BindIgnErr (validators : rtype → option Validator) (typ : rtype)
    (req : HttpRequest) : Result (option Value * Errors) :=
  bind validators typ req.

Definition jsonContentType : string := "application/json; charset=utf-8".
Definition StatusUnprocessableEntity : Z := 422.

(** http.StatusBadRequest and http.StatusUnsupportedMediaType *)
Definition StatusBadRequest : Z := 400.
Definition StatusUnsupportedMediaType : Z := 415.

(** What ErrorHandler writes: the Content-Type header, the status, and the
    list that json.Marshal serialises into the body. *)
Record Response := mkResponse {
  RespContentType : string;
  StatusCode : Z;
  Written : Errors
}.

(** ErrorHandler(errs, resp): the response, [None] where the handler writes
    nothing. *)
Definition ErrorHandler (errs : Errors) : option Response :=
  if (0 <? length errs)%nat then
    let status :=
      if Has errs DeserializationError then StatusBadRequest
      else if Has errs ContentTypeError then StatusUnsupportedMediaType
      else StatusUnprocessableEntity in
    Some (mkResponse jsonContentType status errs)
  else None.

(** Bind(obj)(ctx): the context after bind, and the response of
    ErrorHandler on the list of the context. *)
Definition Bind (validators : rtype → option Validator) (typ : rtype)
    (req : HttpRequest) : Result ((option Value * Errors) * option Response) :=
  ctx ← bind validators typ req;
  Ok (ctx, ErrorHandler ctx.2).

(* ===================================================================== *)
(** ** Schemas: those of common_test.go, and a few small ones *)
(* ===================================================================== *)

Definition tString : rtype := TBasic reflect.String.
Definition tInt : rtype := TBasic reflect.Int.

Definition Post : rtype :=
  TStruct "Post"
    [mkField "Title" "" tString
       [("form", "title"); ("json", "title"); ("binding", "Required")] false;
     mkField "Content" "" tString [("form", "content"); ("json", "content")] false].

Definition Person : rtype :=
  TStruct "Person"
    [mkField "Name" "" tString
       [("form", "name"); ("json", "name"); ("binding", "Required")] false;
     mkField "Email" "" tString [("form", "email"); ("json", "email")] false].

Definition BlogPost_Id : StructField rtype :=
  mkField "Id" "" tInt [("form", "id"); ("binding", "Required")] false.

Definition BlogPost_Ratings : StructField rtype :=
  mkField "Ratings" "" (TSlice tInt) [("form", "rating"); ("json", "ratings")] false.

Definition BlogPost_HeaderImage : StructField rtype :=
  mkField "HeaderImage" "" fhType [("form", "headerImage")] false.

Definition BlogPost_fields : list (StructField rtype) :=
    [mkField "Post" "" Post [] true;
     BlogPost_Id;
     mkField "Ignored" "" tString [("form", "-"); ("json", "-")] false;
     BlogPost_Ratings;
     mkField "Author" "" Person [("json", "author")] false;
     mkField "Coauthor" "" (TPtr Person) [("json", "coauthor")] false;
     BlogPost_HeaderImage;
     mkField "Pictures" "" (TSlice fhType) [("form", "picture")] false;
     mkField "unexported" "binding" tString [("form", "unexported")] false].

Definition BlogPost : rtype := TStruct "BlogPost" BlogPost_fields.

Definition EmbedPerson : rtype :=
  TStruct "EmbedPerson" [mkField "Person" "" (TPtr Person) [] true].

Definition SadForm : rtype :=
  TStruct "SadForm"
    [mkField "AlphaDash" "" tString [("form", "AlphaDash"); ("binding", "AlphaDash")] false;
     mkField "AlphaDashDot" "" tString
       [("form", "AlphaDashDot"); ("binding", "AlphaDashDot")] false;
     mkField "MinSize" "" tString [("form", "MinSize"); ("binding", "MinSize(5)")] false;
     mkField "MinSizeSlice" "" (TSlice tString)
       [("form", "MinSizeSlice"); ("binding", "MinSize(5)")] false;
     mkField "MaxSize" "" tString [("form", "MaxSize"); ("binding", "MaxSize(1)")] false;
     mkField "MaxSizeSlice" "" (TSlice tString)
       [("form", "MaxSizeSlice"); ("binding", "MaxSize(1)")] false;
     mkField "Email" "" tString [("form", "Email"); ("binding", "Email")] false;
     mkField "Url" "" tString [("form", "Url"); ("binding", "Url")] false;
     mkField "UrlEmpty" "" tString [("form", "UrlEmpty"); ("binding", "Url")] false].

(** func (p Post) Validate(ctx, errs) Errors *)
Definition Post_Validate (title : string) (errs : Errors) : Errors :=
  if len title <? 10
  then (errs ++ [mkError ["title"] (CustomError "LengthError") "Life is too short"])%list
  else errs.

(** The method table of common_test.go: Post has Validate, BlogPost has it
    through the embedded Post, and so have the pointers to both. *)
Definition titleOf (v : Value) : string :=
  match v with
  | VStruct (VString t :: _) | VPtr (VStruct (VString t :: _)) => t
  | VStruct (VStruct (VString t :: _) :: _)
  | VPtr (VStruct (VStruct (VString t :: _) :: _)) => t
  | _ => ""
  end.

Definition testValidators (t : rtype) : option Validator :=
  if rtype_eqb t Post || rtype_eqb t (TPtr Post)
     || rtype_eqb t BlogPost || rtype_eqb t (TPtr BlogPost)
  then Some (fun v errs => Post_Validate (titleOf v) errs)
  else None.

(** A schema with a checkbox and one with a narrow counter. *)
Definition Settings : rtype :=
  TStruct "Settings" [mkField "Active" "" (TBasic reflect.Bool) [("form", "active")] false].

Definition Counter : rtype :=
  TStruct "Counter" [mkField "Count" "" (TBasic reflect.Int8) [("form", "count")] false].

(** No type of these schemas has a Validate method. *)
Definition noValidators (t : rtype) : option Validator := None.

(** A request that carries the urlencoded form [form]; it is not
    multipart, so Req.MultipartReader fails with http.ErrNotMultipart. *)
Definition formRequest (form : gmap string (list string)) : Request :=
  mkRequest form None None (inl "request Content-Type isn't multipart/form-data").

(** A Validate method that appends a summary error when the list it is
    handed already holds an error. *)
Definition Post_Summarize (errs : Errors) : Errors :=
  if (0 <? Z.of_nat (length errs))
  then (errs ++ [mkError [] (CustomError "Invalid") "Invalid post"])%list
  else errs.

Definition summaryValidators (t : rtype) : option Validator :=
  if rtype_eqb t Post then Some (fun _ errs => Post_Summarize errs) else None.

Definition vPost (title content : string) : Value := VStruct [VString title; VString content].
Definition vPerson (name email : string) : Value := VStruct [VString name; VString email].
Definition vBlogFields (p : Value) (id : Z) (author coauthor : Value) : list Value :=
  [p; VInt reflect.Int id; VString ""; VNilSlice; author; coauthor; VNilPtr;
   VNilSlice; VString ""].
Definition vBlog (p : Value) (id : Z) (author coauthor : Value) : Value :=
  VStruct (vBlogFields p id author coauthor).

(** A schema with an ignored field that is marked Required. *)
Definition Account_Token : StructField rtype :=
  mkField "Token" "" tString [("form", "-"); ("binding", "Required")] false.
Definition Account : rtype := TStruct "Account" [Account_Token].

(** A schema with a field that lists another rule after Url. *)
Definition Profile_Homepage : StructField rtype :=
  mkField "Homepage" "" tString [("form", "homepage"); ("binding", "Url;Required")] false.
Definition Profile : rtype := TStruct "Profile" [Profile_Homepage].


(* ===================================================================== *)
(** ** Predicates of the statements *)
(* ===================================================================== *)

(** What a run appends does not depend on the list it started from. *)
Definition appends {A} (run : Errors → A → Result Errors) : Prop :=
  ∀ errors a, run errors a = (λ new, errors ++ new)%list <$> run [] a.

(** The language of a regular expression. *)
Inductive matches : regex → string → Prop :=
| MEps : matches Eps ""
| MClass p c : p c = true → matches (Class p) (String c "")
| MCat r1 r2 s1 s2 :
    matches r1 s1 → matches r2 s2 → matches (Cat r1 r2) (s1 ++ s2)
| MAltL r1 r2 s : matches r1 s → matches (Alt r1 r2) s
| MAltR r1 r2 s : matches r2 s → matches (Alt r1 r2) s
| MStarNil r : matches (Star r) ""
| MStarCons r s1 s2 :
    matches r s1 → matches (Star r) s2 → matches (Star r) (s1 ++ s2).

(** The same for a function of the shape of validateStruct, at the type
    [t]. *)
Definition recAppends (rec : Errors → rtype → Value → Result Errors) (t : rtype) : Prop :=
  ∀ errors v, rec errors t v = (λ new, errors ++ new)%list <$> rec [] t v.


(** strings.Split(field.Tag.Get("binding"), ";") *)
Definition rulesOf (field : StructField rtype) : list string :=
  Split (Get (Tag field) "binding") ";".

(** Every Validate method of the table returns the list it was handed
    followed by errors that depend on the validated value alone. *)
Definition appendOnly (validators : rtype → option Validator) : Prop :=
  ∀ t validate, validators t = Some validate →
    ∃ own : Value → Errors, ∀ e errors, validate e errors = (errors ++ own e)%list.

(** The type is neither a slice nor a pointer to a slice: Validate treats a
    value of the type as one value. *)
Definition oneValue (t : rtype) : bool :=
  match t with
  | TSlice _ | TPtr (TSlice _) => false
  | _ => true
  end.


(** The calls of mapForm that the loop makes for a field: on the type of the
    field, and on the target type of an embedded pointer. *)
Definition onCalls (P : rtype → Prop) (f : StructField rtype) : Prop :=
  P (Typ f) ∧ ∀ e, Typ f = TPtr e → P e.





(** The type is a struct type. *)
Definition isStructType (t : rtype) : bool :=
  match t with
  | TStruct _ _ => true
  | _ => false
  end.

(** Every embedded pointer that the walk of a struct of type [t] and flags
    [fl] reaches is exported, lies in no unexported named struct, and points
    to a struct. *)
Fixpoint bindable (fl : flag) (t : rtype) {struct t} : bool :=
  match t with
  | TStruct _ fs =>
      forallb (λ f,
        match Typ f with
        | TPtr e =>
            if Anonymous f
            then negb (isRO (fieldFlag fl f)) && isStructType e && bindable flagNone e
            else true
        | TStruct _ _ => bindable (fieldFlag fl f) (Typ f)
        | _ => true
        end) fs
  | _ => false
  end.

(** The rule can be cut at rule[8 : len(rule)-1]: it is not just the
    text "MinSize(" or "MaxSize(". *)
Definition ruleOk (rule : string) : bool :=
  if HasPrefix rule "MinSize(" || HasPrefix rule "MaxSize("
  then 9 <=? len rule else true.

(** The negation of [notSkipped], as a boolean. *)
Definition skipped (f : StructField rtype) : bool :=
  String.eqb (Get (Tag f) "form") "-" || negb (String.eqb (PkgPath f) "").



(** Some byte of the string satisfies [p]. *)
Fixpoint anyByte (p : ascii → bool) (s : string) : bool :=
  match s with
  | EmptyString => false
  | String c s' => p c || anyByte p s'
  end.

(** An ASCII letter, a digit, the underscore or the dash. *)
Definition isAlphaDash (c : ascii) : bool :=
  inRange 48 57 c || inRange 65 90 c || inRange 97 122 c
  || Ascii.eqb c "_" || Ascii.eqb c "-".

(** The classification and the message of the errors of the seven rules. *)
Definition ruleClasses : list (Classification * string) :=
  [(RequiredError, "Required"); (AlphaDashError, "AlphaDash");
   (AlphaDashDotError, "AlphaDashDot"); (MinSizeError, "MinSize");
   (MaxSizeError, "MaxSize"); (EmailError, "Email"); (UrlError, "Url")].

(** An error as a rule appends it: one field name, and the classification
    and the message of one rule. *)
Definition isRuleError (e : Error) : bool :=
  match FieldNames e with
  | [_] => bool_decide ((Class_ e, Message e) ∈ ruleClasses)
  | _ => false
  end.

(** The keys that the walk of a struct of type [t] looks up: the form tags
    of the fields that are neither structs nor embedded pointers, and the
    keys of the structs and of the targets of the embedded pointers. *)
Fixpoint formKeys (t : rtype) : list string :=
  match t with
  | TStruct _ fs =>
      flat_map (λ f,
        match Typ f with
        | TPtr e =>
            if Anonymous f then formKeys e
            else if String.eqb (Get (Tag f) "form") "" then [] else [Get (Tag f) "form"]
        | TStruct _ _ => formKeys (Typ f)
        | _ => if String.eqb (Get (Tag f) "form") "" then [] else [Get (Tag f) "form"]
        end) fs
  | TPtr e => formKeys e
  | _ => []
  end.

(** The field is one that the loop of mapForm handles itself (lines
    309-344): no struct and no embedded pointer. *)
Definition isLeaf (f : StructField rtype) : bool :=
  match Typ f with
  | TStruct _ _ => false
  | TPtr _ => negb (Anonymous f)
  | _ => true
  end.

(* ===================================================================== *)
(** * Properties *)
(* ===================================================================== *)

(** ** Induction over values and types *)

Lemma Value_ind' (P : Value → Prop) :
  (∀ b, P (VBool b)) →
  (∀ k n, P (VInt k n)) →
  (∀ k n, P (VUint k n)) →
  (∀ s, P (VString s)) →
  P VNilSlice →
  (∀ l, Forall P l → P (VSlice l)) →
  P VNilPtr →
  (∀ x, P x → P (VPtr x)) →
  (∀ l, Forall P l → P (VStruct l)) →
  ∀ v, P v.
Proof.
  intros Hb Hi Hu Hs Hns Hsl Hnp Hp Hst.
  fix IH 1. intros [b|k n|k n|s| |l| |x|l].
  - apply Hb.
  - apply Hi.
  - apply Hu.
  - apply Hs.
  - apply Hns.
  - apply Hsl. induction l as [|a l IHl]; constructor; [apply IH | exact IHl].
  - apply Hnp.
  - apply Hp, IH.
  - apply Hst. induction l as [|a l IHl]; constructor; [apply IH | exact IHl].
Qed.

Lemma rtype_ind' (P : rtype → Prop) :
  (∀ k, P (TBasic k)) →
  (∀ e, P e → P (TSlice e)) →
  (∀ e, P e → P (TPtr e)) →
  (∀ n fs, Forall (λ f, P (Typ f)) fs → P (TStruct n fs)) →
  ∀ t, P t.
Proof.
  intros Hb Hs Hp Hst.
  fix IH 1. intros [k|e|e|n fs].
  - apply Hb.
  - apply Hs, IH.
  - apply Hp, IH.
  - apply Hst. induction fs as [|[nm pk ty tg an] fs IHfs]; constructor;
      [simpl; apply IH | exact IHfs].
Qed.

(** ** DeepEqual decides equality of values *)

Lemma DeepEqual_eq (x y : Value) : DeepEqual x y = true ↔ x = y.
Proof.
  revert y. induction x as [b|k n|k n|s| |l IH| |x IH|l IH] using Value_ind';
    intros [b'|k' n'|k' n'|s'| |l'| |x'|l']; simpl;
    try (split; [discriminate | congruence]); try tauto.
  - rewrite Bool.eqb_true_iff. split; congruence.
  - rewrite andb_true_iff, bool_decide_eq_true, Z.eqb_eq. intuition congruence.
  - rewrite andb_true_iff, bool_decide_eq_true, Z.eqb_eq. intuition congruence.
  - rewrite String.eqb_eq. split; congruence.
  - revert l'. induction IH as [|a l Ha _ IHl]; intros [|b l']; simpl;
      try (split; [discriminate | congruence]); try tauto.
    rewrite andb_true_iff, Ha, IHl. intuition congruence.
  - rewrite IH. split; congruence.
  - revert l'. induction IH as [|a l Ha _ IHl]; intros [|b l']; simpl;
      try (split; [discriminate | congruence]); try tauto.
    rewrite andb_true_iff, Ha, IHl. intuition congruence.
Qed.

Lemma DeepEqual_refl (x : Value) : DeepEqual x x = true.
Proof. by apply DeepEqual_eq. Qed.

(** ** The matcher finds the substrings of the language *)

Lemma string_app_nil_r (s : string) : s ++ "" = s.
Proof.
  induction s as [|c s IH]; [done|].
  change (String c (s ++ "") = String c s). by rewrite IH.
Qed.

Lemma string_app_nil_l (s : string) : "" ++ s = s.
Proof. reflexivity. Qed.

Lemma string_app_cons (c : ascii) (a b : string) :
  String c a ++ b = String c (a ++ b).
Proof. reflexivity. Qed.

Lemma string_app_nil_inv (a b : string) : a ++ b = "" → a = "" ∧ b = "".
Proof. by destruct a. Qed.

Lemma nullable_matches r : nullable r = true ↔ matches r "".
Proof.
  split.
  - induction r as [| |p|r1 IH1 r2 IH2|r1 IH1 r2 IH2|r IH]; simpl; try done.
    + intros _. constructor.
    + intros [H1 H2]%andb_true_iff. apply (MCat r1 r2 "" ""); auto.
    + intros [H|H]%orb_true_iff; [apply MAltL | apply MAltR]; auto.
    + intros _. constructor.
  - remember "" as s eqn:Es. induction 1 as [|p c Hp|r1 r2 s1 s2 _ IH1 _ IH2
      |r1 r2 s _ IH|r1 r2 s _ IH|r|r s1 s2 _ _ _ _]; simpl; try done.
    + apply string_app_nil_inv in Es as [-> ->]. by rewrite IH1, IH2.
    + by rewrite IH.
    + rewrite IH by done. apply orb_true_r.
Qed.

Lemma matches_Fail s : ¬ matches Fail s.
Proof. inversion 1. Qed.

Lemma matches_Eps_inv s : matches Eps s → s = "".
Proof. by inversion 1. Qed.

Lemma matches_Class_inv p s : matches (Class p) s → ∃ c, s = String c "" ∧ p c = true.
Proof. inversion 1; subst; eauto. Qed.

Lemma matches_Cat_inv r1 r2 s :
  matches (Cat r1 r2) s → ∃ s1 s2, s = s1 ++ s2 ∧ matches r1 s1 ∧ matches r2 s2.
Proof. inversion 1; subst; eauto. Qed.

Lemma matches_Alt_inv r1 r2 s : matches (Alt r1 r2) s → matches r1 s ∨ matches r2 s.
Proof. inversion 1; subst; auto. Qed.

Lemma mkCat_matches r1 r2 s : matches (mkCat r1 r2) s ↔ matches (Cat r1 r2) s.
Proof.
  assert (HF1 : ∀ r, matches Fail s ↔ matches (Cat Fail r) s).
  { intros r. split; [by intros ?%matches_Fail|].
    intros (s1 & s2 & _ & H & _)%matches_Cat_inv. by destruct (matches_Fail s1). }
  assert (HF2 : ∀ r, matches Fail s ↔ matches (Cat r Fail) s).
  { intros r. split; [by intros ?%matches_Fail|].
    intros (s1 & s2 & _ & _ & H)%matches_Cat_inv. by destruct (matches_Fail s2). }
  assert (HE : ∀ r, matches r s ↔ matches (Cat Eps r) s).
  { intros r. split.
    - intros H. apply (MCat Eps r "" s); [constructor | done].
    - intros (s1 & s2 & -> & H1 & H2)%matches_Cat_inv.
      by apply matches_Eps_inv in H1 as ->. }
  destruct r1, r2; simpl; try done; auto.
Qed.

Lemma mkAlt_matches r1 r2 s : matches (mkAlt r1 r2) s ↔ matches (Alt r1 r2) s.
Proof.
  assert (HF1 : ∀ r, matches r s ↔ matches (Alt Fail r) s).
  { intros r. split; [apply MAltR|].
    intros [H|H]%matches_Alt_inv; [by destruct (matches_Fail s) | done]. }
  assert (HF2 : ∀ r, matches r s ↔ matches (Alt r Fail) s).
  { intros r. split; [apply MAltL|].
    intros [H|H]%matches_Alt_inv; [done | by destruct (matches_Fail s)]. }
  destruct r1, r2; simpl; try done; auto.
Qed.

(** A word of a starred expression that starts with [c] starts with a word
    of the expression that starts with [c]. *)
Lemma matches_Star_cons r c s :
  matches (Star r) (String c s) →
  ∃ s1 s2, s = s1 ++ s2 ∧ matches r (String c s1) ∧ matches (Star r) s2.
Proof.
  remember (Star r) as r' eqn:Er. remember (String c s) as w eqn:Ew.
  intros H. revert s Ew.
  induction H as [| | | | |?|r0 s1 s2 H1 _ H2 IH2]; intros t Ew; try done.
  injection Er as ->. destruct s1 as [|c1 s1]; rewrite ?string_app_nil_l, ?string_app_cons in Ew.
  - by apply IH2.
  - injection Ew as -> <-. eauto.
Qed.

Lemma deriv_matches c r s : matches (deriv c r) s ↔ matches r (String c s).
Proof.
  revert s. induction r as [| |p|r1 IH1 r2 IH2|r1 IH1 r2 IH2|r IH]; intros s; simpl.
  - split; inversion 1.
  - split; [by intros ?%matches_Fail | by intros ?%matches_Eps_inv].
  - destruct (p c) eqn:Hp; split.
    + intros ->%matches_Eps_inv. by constructor.
    + intros (c' & [= <- ->] & _)%matches_Class_inv. constructor.
    + by intros ?%matches_Fail.
    + intros (c' & [= <- ->] & Hc)%matches_Class_inv. congruence.
  - rewrite mkAlt_matches. split.
    + intros [H|H]%matches_Alt_inv.
      * apply mkCat_matches, matches_Cat_inv in H as (s1 & s2 & -> & Ha & Hb).
        apply IH1 in Ha. apply (MCat r1 r2 (String c s1) s2 Ha Hb).
      * destruct (nullable r1) eqn:Hn; [|by destruct (matches_Fail s)].
        apply nullable_matches in Hn. apply IH2 in H.
        apply (MCat r1 r2 "" (String c s) Hn H).
    + intros (s1 & s2 & Hs & Ha & Hb)%matches_Cat_inv.
      destruct s1 as [|c1 s1]; rewrite ?string_app_nil_l, ?string_app_cons in Hs.
      * subst s2. apply MAltR. apply nullable_matches in Ha. rewrite Ha.
        by apply IH2.
      * injection Hs as -> ->. apply MAltL, mkCat_matches.
        constructor; [by apply IH1 | done].
  - rewrite mkAlt_matches. split.
    + intros [H|H]%matches_Alt_inv; [apply MAltL, IH1 | apply MAltR, IH2]; done.
    + intros [H|H]%matches_Alt_inv; [apply MAltL, IH1 | apply MAltR, IH2]; done.
  - rewrite mkCat_matches. split.
    + intros (s1 & s2 & -> & Ha & Hb)%matches_Cat_inv.
      apply IH in Ha. apply (MStarCons r (String c s1) s2 Ha Hb).
    + intros (s1 & s2 & -> & Ha & Hb)%matches_Star_cons.
      constructor; [by apply IH | done].
Qed.

Lemma matchPrefix_spec r s :
  matchPrefix r s = true ↔ ∃ s1 s2, s = s1 ++ s2 ∧ matches r s1.
Proof.
  revert r. induction s as [|c s IH]; intros r; simpl.
  - rewrite orb_false_r, nullable_matches. split.
    + intros H. by exists "", "".
    + intros (s1 & s2 & Hs & H). symmetry in Hs.
      by apply string_app_nil_inv in Hs as [-> _].
  - rewrite orb_true_iff, nullable_matches. split.
    + intros [H|H]; [by exists "", (String c s)|].
      destruct (isFail r); [done|].
      apply IH in H as (s1 & s2 & -> & H). apply deriv_matches in H.
      by exists (String c s1), s2.
    + intros (s1 & s2 & Hs & H). destruct s1 as [|c1 s1]; [by left|].
      right. rewrite ?string_app_nil_l, ?string_app_cons in Hs. injection Hs as <- ->.
      destruct (isFail r) eqn:Hf; [destruct r; try done; by inversion H|].
      apply IH. exists s1, s2. split; [done|]. by apply deriv_matches.
Qed.

Lemma MatchString_unfold r s :
  MatchString r s
  = matchPrefix r s ||
    match s with
    | EmptyString => false
    | String _ s' => MatchString r s'
    end.
Proof. by destruct s. Qed.

(** MatchString is true exactly when some substring of the text is in the
    language of the expression. *)
Theorem MatchString_spec r s :
  MatchString r s = true ↔ ∃ s0 s1 s2, s = s0 ++ s1 ++ s2 ∧ matches r s1.
Proof.
  induction s as [|c s IH]; rewrite MatchString_unfold.
  - rewrite orb_false_r, matchPrefix_spec. split.
    + intros (s1 & s2 & Hs & H). by exists "", s1, s2.
    + intros (s0 & s1 & s2 & Hs & H). symmetry in Hs.
      apply string_app_nil_inv in Hs as [-> Hs]. eauto.
  - rewrite orb_true_iff, matchPrefix_spec, IH. split.
    + intros [(s1 & s2 & Hs & H)|(s0 & s1 & s2 & -> & H)].
      * by exists "", s1, s2.
      * by exists (String c s0), s1, s2.
    + intros (s0 & s1 & s2 & Hs & H). destruct s0 as [|c0 s0].
      * left. by exists s1, s2.
      * right. rewrite string_app_cons in Hs. injection Hs as <- ->.
        by exists s0, s1, s2.
Qed.

(** ** The validator only appends *)

Lemma fmap_Ok {A B} (f : A → B) (a : A) : f <$> Ok a = Ok (f a).
Proof. reflexivity. Qed.

Lemma matchRule_appends field zero fieldValue :
  appends (matchRule field zero fieldValue).
Proof.
  intros errors rule. unfold matchRule, Add.
  repeat (first [case_match | destruct (sliceString _ _ _)]; simpl; try done);
    rewrite ?app_nil_r; try done.
Qed.

Lemma matchRules_appends field zero fieldValue rules errors :
  matchRules field zero fieldValue rules errors
  = (λ new, errors ++ new)%list <$> matchRules field zero fieldValue rules [].
Proof.
  revert errors. induction rules as [|rule rest IH]; intros errors; simpl.
  - by rewrite app_nil_r.
  - rewrite (matchRule_appends _ _ _ errors rule).
    destruct (matchRule field zero fieldValue [] rule) as [new|msg]; simpl; [|done].
    rewrite (IH (errors ++ new)%list), (IH new).
    destruct (matchRules field zero fieldValue rest []) as [new'|msg]; simpl; [|done].
    by rewrite app_assoc.
Qed.

Lemma bind_appends (r1 r2 : Errors → Result Errors) :
  (∀ e, r1 e = (λ new, e ++ new)%list <$> r1 []) →
  (∀ e, r2 e = (λ new, e ++ new)%list <$> r2 []) →
  ∀ e, r1 e ≫= r2 = (λ new, e ++ new)%list <$> (r1 [] ≫= r2).
Proof.
  intros H1 H2 e. rewrite (H1 e).
  destruct (r1 []) as [n|msg]; simpl; [|done].
  rewrite (H2 (e ++ n)%list), (H2 n).
  destruct (r2 []) as [n'|msg]; simpl; [|done].
  by rewrite app_assoc.
Qed.

Lemma validateFields_appends rec fields :
  Forall (λ f, recAppends rec (Typ f)) fields →
  ∀ i val errors,
    validateFields rec fields i val errors
    = (λ new, errors ++ new)%list <$> validateFields rec fields i val [].
Proof.
  induction 1 as [|field rest Hf _ IH]; intros i val errors; simpl.
  - by rewrite app_nil_r.
  - destruct (String.eqb _ "-"); [apply IH|].
    destruct (FieldOf val i) as [fieldValue|msg]; simpl; [|done].
    destruct (negb _); [apply IH|].
    apply (bind_appends
      (λ e, match Typ field with
            | TStruct _ _ => rec e (Typ field) fieldValue
            | TPtr elem =>
                if negb (DeepEqual (Zero (Typ field)) fieldValue)
                   && bool_decide (Kind elem = reflect.Struct)
                then rec e (Typ field) fieldValue else Ok e
            | _ => Ok e
            end)
      (λ e, matchRules field (Zero (Typ field)) fieldValue
              (Split (Get (Tag field) "binding") ";") e
            ≫= λ e', validateFields rec rest (S i) val e')).
    + intros e. destruct (Typ field); simpl; rewrite ?app_nil_r; try done.
      destruct (_ && _); simpl; [apply Hf | by rewrite app_nil_r].
    + apply bind_appends; [apply matchRules_appends | apply IH].
Qed.

Lemma validateStruct_appends_both (t : rtype) :
  recAppends validateStruct t ∧ recAppends validateStruct (TPtr t).
Proof.
  induction t as [k|e IH|e [_ IH]|n fs IH] using rtype_ind'.
  - split; intros errors v; reflexivity.
  - split; intros errors v; reflexivity.
  - split; [exact IH|]. intros errors v; reflexivity.
  - assert (Hfs : Forall (λ f, recAppends validateStruct (Typ f)) fs).
    { eapply Forall_impl; [exact IH|]. by intros f [Hf _]. }
    split; intros errors v; simpl; by apply validateFields_appends.
Qed.

Lemma validateStruct_appends (t : rtype) (errors : Errors) (v : Value) :
  validateStruct errors t v
  = (λ new, errors ++ new)%list <$> validateStruct [] t v.
Proof. apply validateStruct_appends_both. Qed.

(** ** The loop over the fields, cut at a field *)


Lemma fmap_Ok_inv {A B} (f : A → B) (r : Result A) (b : B) :
  f <$> r = Ok b → ∃ a, r = Ok a ∧ b = f a.
Proof. destruct r as [a|msg]; simpl; [|done]. intros [= <-]. eauto. Qed.

Lemma bind_Ok_inv {A B} (r : Result A) (k : A → Result B) (b : B) :
  r ≫= k = Ok b → ∃ a, r = Ok a ∧ k a = Ok b.
Proof. destruct r as [a|msg]; simpl; [|done]. eauto. Qed.


(** ** Strings *)

Lemma len_nonneg (s : string) : 0 <= len s.
Proof. unfold len. lia. Qed.

Lemma len_eq_0 (s : string) : (len s =? 0) = true ↔ s = "".
Proof.
  unfold len. rewrite Z.eqb_eq. destruct s; simpl; split; intros H; try done; lia.
Qed.

Lemma length_app_string (a b : string) :
  String.length (a ++ b) = (String.length a + String.length b)%nat.
Proof. induction a as [|c a IH]; simpl; [done | by rewrite IH]. Qed.

Lemma len_app (a b : string) : len (a ++ b) = len a + len b.
Proof. unfold len. rewrite length_app_string. lia. Qed.

Lemma substring_skip (pre s : string) (n : nat) :
  String.substring (String.length pre) n (pre ++ s) = String.substring 0 n s.
Proof. induction pre as [|c pre IH]; simpl; [done | apply IH]. Qed.

Lemma substring_prefix (a b : string) :
  String.substring 0 (String.length a) (a ++ b) = a.
Proof.
  induction a as [|c a IH]; simpl.
  - by destruct b.
  - by rewrite IH.
Qed.

Lemma prefix_nil (s : string) : String.prefix "" s = true.
Proof. by destruct s. Qed.

(** rule[8 : len(rule)-1] of a rule "XxxSize(" arg ")" is arg. *)
Lemma sliceString_arg (pre arg : string) :
  String.length pre = 8%nat →
  sliceString (pre ++ arg ++ ")") 8 (len (pre ++ arg ++ ")") - 1) = Ok arg.
Proof.
  intros Hpre. unfold sliceString. rewrite !len_app.
  assert (Hl : len pre = 8) by (unfold len; lia).
  pose proof (len_nonneg arg). change (len ")") with 1. rewrite Hl.
  replace (8 + (len arg + 1) - 1) with (8 + len arg) by lia.
  replace ((0 <=? 8) && (8 <=? 8 + len arg) && (8 + len arg <=? 8 + (len arg + 1)))
    with true by (symmetry; rewrite !andb_true_iff, !Z.leb_le; lia).
  f_equal. replace (Z.to_nat 8) with (String.length pre) by lia.
  replace (Z.to_nat (8 + len arg - 8)) with (String.length arg) by (unfold len; lia).
  by rewrite substring_skip, substring_prefix.
Qed.

(** ** The rules one by one *)


Lemma matchRule_MinSize field zero fieldValue errors arg :
  matchRule field zero fieldValue errors ("MinSize(" ++ arg ++ ")")
  = Ok (if assertString fieldValue (λ str, RuneCountInString str <? (Atoi arg).1)
           || isSliceValue fieldValue && (Len fieldValue <? (Atoi arg).1)
        then Add errors [Name field] MinSizeError "MinSize" else errors).
Proof.
  unfold matchRule.
  rewrite (sliceString_arg "MinSize(" arg eq_refl).
  replace (len ("MinSize(" ++ arg ++ ")") =? 0) with false
    by (symmetry; apply Z.eqb_neq; rewrite len_app; pose proof (len_nonneg (arg ++ ")"));
        change (len "MinSize(") with 8; lia).
  unfold HasPrefix. simpl. rewrite prefix_nil.
  destruct (assertString _ _); simpl; [done|]. by destruct (_ && _).
Qed.

Lemma matchRule_MaxSize field zero fieldValue errors arg :
  matchRule field zero fieldValue errors ("MaxSize(" ++ arg ++ ")")
  = Ok (if assertString fieldValue (λ str, RuneCountInString str >? (Atoi arg).1)
           || isSliceValue fieldValue && (Len fieldValue >? (Atoi arg).1)
        then Add errors [Name field] MaxSizeError "MaxSize" else errors).
Proof.
  unfold matchRule.
  rewrite (sliceString_arg "MaxSize(" arg eq_refl).
  replace (len ("MaxSize(" ++ arg ++ ")") =? 0) with false
    by (symmetry; apply Z.eqb_neq; rewrite len_app; pose proof (len_nonneg (arg ++ ")"));
        change (len "MaxSize(") with 8; lia).
  unfold HasPrefix. simpl. rewrite prefix_nil.
  destruct (assertString _ _); simpl; [done|]. by destruct (_ && _).
Qed.

Lemma matchRule_Url field zero fieldValue errors :
  matchRule field zero fieldValue errors "Url"
  = Ok (if len (Sprintf_v fieldValue) =? 0 then errors
        else if MatchString urlPattern (Sprintf_v fieldValue) then errors
        else Add errors [Name field] UrlError "Url").
Proof.
  unfold matchRule. simpl.
  destruct (len _ =? 0); [done|]. by destruct (MatchString _ _).
Qed.




(* ===================================================================== *)
(** * The rules of the validator *)
(* ===================================================================== *)




(** The tests "List of invalid custom validations" and "List of valid
    custom validations" of the package: every rule of SadForm appends its
    error, under the declared name of its field, except Url on the empty
    UrlEmpty; the valid form gets none. *)
Example sadform_invalid :
  Validate noValidators (TSlice SadForm)
    (VSlice [VStruct [VString ","; VString ","; VString ",";
                      VSlice [VString ","; VString ","]; VString ",,";
                      VSlice [VString ","; VString ","]; VString ","; VString ",";
                      VString ""]])
  = Ok [mkError ["AlphaDash"] AlphaDashError "AlphaDash";
        mkError ["AlphaDashDot"] AlphaDashDotError "AlphaDashDot";
        mkError ["MinSize"] MinSizeError "MinSize";
        mkError ["MinSizeSlice"] MinSizeError "MinSize";
        mkError ["MaxSize"] MaxSizeError "MaxSize";
        mkError ["MaxSizeSlice"] MaxSizeError "MaxSize";
        mkError ["Email"] EmailError "Email";
        mkError ["Url"] UrlError "Url"].
Proof. vm_compute. reflexivity. Qed.

Example sadform_valid :
  Validate noValidators (TSlice SadForm)
    (VSlice [VStruct [VString "123-456"; VString "123.456"; VString "12345";
                      VSlice [VString "1"; VString "2"; VString "3"; VString "4";
                              VString "5"];
                      VString "1"; VSlice [VString "1"]; VString "123@456.com";
                      VString "http://123.456"; VString ""]])
  = Ok [].
Proof. vm_compute. reflexivity. Qed.

(** A field whose form tag is "-" is skipped before its rules are read. *)
Example ignored_field_is_skipped :
  "Required" ∈ rulesOf Account_Token ∧
  DeepEqual (Zero (Typ Account_Token)) (VString "") = true ∧
  validateStruct [] Account (VStruct [VString ""]) = Ok [].
Proof.
  split; [|split]; [|reflexivity|reflexivity].
  vm_compute. apply list_elem_of_here.
Qed.



(** C7 (amended).  On a value that prints as the empty string the rule Url
    appends nothing and the loop goes on with the rules that follow it; on
    any other value the rule appends a Url error exactly when urlPattern
    finds no match in the printed value. *)
Theorem C7_url_rule field zero fieldValue errors rest :
  (Sprintf_v fieldValue = "" →
   matchRule field zero fieldValue errors "Url" = Ok errors ∧
   matchRules field zero fieldValue ("Url" :: rest) errors
   = matchRules field zero fieldValue rest errors) ∧
  (Sprintf_v fieldValue ≠ "" →
   matchRule field zero fieldValue errors "Url"
   = Ok (if MatchString urlPattern (Sprintf_v fieldValue) then errors
         else Add errors [Name field] UrlError "Url")).
Proof.
  split.
  - intros Hempty.
    assert (H : matchRule field zero fieldValue errors "Url" = Ok errors).
    { rewrite matchRule_Url, Hempty. reflexivity. }
    split; [exact H|]. cbn [matchRules]. by rewrite H.
  - intros Hne. rewrite matchRule_Url.
    destruct (len (Sprintf_v fieldValue) =? 0) eqn:E; [|done].
    by apply len_eq_0 in E.
Qed.

(** The fields Url and UrlEmpty of the test "List of invalid custom
    validations": "," is no URL, and the empty string passes. *)
Lemma C7_url_rule_witness :
  (matchRule Profile_Homepage (VString "") (VString "") [] "Url" = Ok [] ∧
   matchRules Profile_Homepage (VString "") (VString "") ["Url"; "Required"] []
   = matchRules Profile_Homepage (VString "") (VString "") ["Required"] []) ∧
  matchRule Profile_Homepage (VString "") (VString ",") [] "Url"
  = Ok [mkError ["Homepage"] UrlError "Url"].
Proof.
  split.
  - apply (C7_url_rule Profile_Homepage (VString "") (VString "") [] ["Required"]).
    reflexivity.
  - apply (C7_url_rule Profile_Homepage (VString "") (VString ",") [] []).
    discriminate.
Defined.

(** C7 as stated fails: the value of Homepage prints as the empty string,
    and the rule Required, which follows Url in the tag, is matched all the
    same and appends its error: the rules after Url are not left out. *)
Lemma C7_counterexample :
  Sprintf_v (VString "") = "" ∧
  rulesOf Profile_Homepage = ["Url"; "Required"] ∧
  validateStruct [] Profile (VStruct [VString ""])
  = Ok [mkError ["Homepage"] RequiredError "Required"] ∧
  matchRules Profile_Homepage (VString "") (VString "") ["Url"; "Required"] []
  ≠ Ok [].
Proof. repeat split. discriminate. Qed.

(* ===================================================================== *)
(** * Validation of a sequence *)
(* ===================================================================== *)

Lemma Validate_oneValue validators t e :
  oneValue t = true →
  Validate validators t e
  = validateStruct [] t e ≫= λ errors, Ok (callValidator validators t e errors).
Proof.
  unfold Validate. destruct t as [k|el|el|n fs]; try done.
  destruct el as [k|el|el|n fs], e; try done.
  all: by destruct e.
Qed.

Lemma callValidator_appends validators t e errors :
  appendOnly validators →
  callValidator validators t e errors
  = (errors ++ callValidator validators t e [])%list.
Proof.
  intros Happ. unfold callValidator.
  destruct (validators t) as [validate|] eqn:E; [|by rewrite app_nil_r].
  destruct (Happ _ _ E) as [own Hown]. by rewrite (Hown e errors), (Hown e []).
Qed.

Lemma validateElems_concat validators elemT elems errors :
  appendOnly validators →
  oneValue elemT = true →
  validateElems validators elemT elems errors
  = (λ ls, errors ++ concat ls)%list <$> mapM (Validate validators elemT) elems.
Proof.
  intros Happ Hone. revert errors.
  induction elems as [|e rest IH]; intros errors; simpl.
  - by rewrite app_nil_r.
  - rewrite (Validate_oneValue _ _ _ Hone), validateStruct_appends.
    destruct (validateStruct [] elemT e) as [new|msg]; simpl; [|done].
    rewrite IH, (callValidator_appends _ _ _ (errors ++ new)%list Happ),
      (callValidator_appends _ _ _ new Happ).
    destruct (mapM (Validate validators elemT) rest) as [ls|msg]; simpl; [|done].
    by rewrite <- !app_assoc.
Qed.

(** C8 (amended).  When every Validate method of the elements only appends
    errors of its own to the list it is handed, validating a sequence of
    structs (or of pointers to structs) gives the error lists of the
    elements, each validated on its own, one after the other; if validating
    an element panics, so does validating the sequence. *)
Theorem C8_list_validation validators elemT elems :
  appendOnly validators →
  oneValue elemT = true →
  Validate validators (TSlice elemT) (VSlice elems)
  = (λ ls, concat ls) <$> mapM (Validate validators elemT) elems.
Proof.
  intros Happ Hone. unfold Validate.
  by rewrite (validateElems_concat _ _ _ [] Happ Hone).
Qed.

Lemma testValidators_appendOnly : appendOnly testValidators.
Proof.
  intros t validate. unfold testValidators.
  destruct (_ || _); [|done]. intros [= <-].
  exists (λ e, Post_Validate (titleOf e) []). intros e errors.
  unfold Post_Validate. destruct (len _ <? 10); [done | by rewrite app_nil_r].
Qed.

(** The test "List Validation w/ Errors": two posts, the second with a
    title that is too short for the Validate method of Post. *)
Lemma C8_list_validation_witness :
  Validate testValidators (TSlice BlogPost)
    (VSlice [vBlog (vPost "First Post" "And some content") 1 (vPerson "Leeor Aharon" "") VNilPtr;
             vBlog (vPost "Too Short" "And some content") 2 (vPerson "Leeor Aharon" "") VNilPtr])
  = (λ ls, concat ls) <$> mapM (Validate testValidators BlogPost)
      [vBlog (vPost "First Post" "And some content") 1 (vPerson "Leeor Aharon" "") VNilPtr;
       vBlog (vPost "Too Short" "And some content") 2 (vPerson "Leeor Aharon" "") VNilPtr].
Proof.
  apply (C8_list_validation testValidators BlogPost).
  - exact testValidators_appendOnly.
  - reflexivity.
Defined.

(** C8 as stated fails: with a Validate method that looks at the list it is
    handed, the second post, valid on its own, gets an error in the
    sequence because the first post left one in the list. *)
Lemma C8_counterexample :
  Validate summaryValidators Post (vPost "" "a")
  = Ok [mkError ["Title"] RequiredError "Required";
        mkError [] (CustomError "Invalid") "Invalid post"] ∧
  Validate summaryValidators Post (vPost "Title" "b") = Ok [] ∧
  Validate summaryValidators (TSlice Post) (VSlice [vPost "" "a"; vPost "Title" "b"])
  = Ok [mkError ["Title"] RequiredError "Required";
        mkError [] (CustomError "Invalid") "Invalid post";
        mkError [] (CustomError "Invalid") "Invalid post"] ∧
  Validate summaryValidators (TSlice Post) (VSlice [vPost "" "a"; vPost "Title" "b"])
  ≠ (λ ls, concat ls) <$> mapM (Validate summaryValidators Post)
                            [vPost "" "a"; vPost "Title" "b"].
Proof. repeat split. discriminate. Qed.

(* ===================================================================== *)
(** * Coercion of raw values *)
(* ===================================================================== *)




(** The list that Form maps into the context: the deserialization error, if
    ParseForm failed, and after it what Validate appends to an empty list.
    Nothing that the walk of mapForm appended is in it. *)
Lemma Form_errors validators typ req v errors :
  Form validators typ req = Ok (v, errors) →
  ∃ validated,
    Validate validators (TPtr typ) (VPtr v) = Ok validated ∧
    errors = (match ParseForm req with
              | Some parseErr => [mkError [] DeserializationError parseErr]
              | None => []
              end ++ validated)%list.
Proof.
  unfold Form. intros H.
  apply bind_Ok_inv in H as (? & _ & H).
  apply bind_Ok_inv in H as (formStruct & _ & H).
  unfold validateAndMap in H.
  apply bind_Ok_inv in H as (validated & Hval & H).
  destruct formStruct; try done. injection H as -> <-.
  exists validated. split; [done|]. by destruct (ParseForm req).
Qed.

(** C3: the raw value "notabool" for the checkbox Active.  setWithProperType
    leaves the field alone and appends the boolean-type error to its copy
    of the list; the list of Form, which validateAndMap maps into the
    context, holds no error. *)
Theorem C3_boolean_error_is_lost :
  setWithProperType reflect.Bool "notabool" (VBool false) "active" []
  = Ok (VBool false,
        [mkError ["active"] BooleanTypeError "Value could not be parsed as boolean"]) ∧
  Form noValidators Settings (formRequest {[ "active" := ["notabool"] ]})
  = Ok (VStruct [VBool false], []).
Proof. split; reflexivity. Qed.

(** C5: the raw value "abc" for the int8 field Count leaves the field at 0,
    and the integer-type error that setWithProperType appends to its copy
    of the list is not in the list of Form; the raw value "300", which no
    int8 holds, is parsed as a 64-bit integer without an error and stored
    as int8(300) = 44. *)
Theorem C5_integer_error_is_lost :
  setWithProperType reflect.Int8 "abc" (VInt reflect.Int8 0) "count" []
  = Ok (VInt reflect.Int8 0,
        [mkError ["count"] IntegerTypeError "Value could not be parsed as integer"]) ∧
  Form noValidators Counter (formRequest {[ "count" := ["abc"] ]})
  = Ok (VStruct [VInt reflect.Int8 0], []) ∧
  ParseInt "300" 8 = (127, Some ErrRange) ∧
  Form noValidators Counter (formRequest {[ "count" := ["300"] ]})
  = Ok (VStruct [VInt reflect.Int8 44], []).
Proof. repeat split. Qed.

(* ===================================================================== *)
(** * Panics of the entry points *)
(* ===================================================================== *)

(** A pointer as the model panics before anything else is done. *)
Lemma pointer_model_panics validators t req :
  Form validators (TPtr t) req = Panic "Pointers are not accepted as binding models" ∧
  MultipartForm validators (TPtr t) req
  = Panic "Pointers are not accepted as binding models".
Proof. split; reflexivity. Qed.


(* ===================================================================== *)
(** * The form walker *)
(* ===================================================================== *)

(** ** Repeated keys *)





Example ratings_in_order :
  mapFormLeaf BlogPost_Ratings VNilSlice flagNone {[ "rating" := ["1"; "2"; "3"] ]} ∅ []
  = Ok (VSlice [VInt reflect.Int 1; VInt reflect.Int 2; VInt reflect.Int 3]).
Proof. reflexivity. Qed.


(** ** Keys in both maps *)


Lemma rtype_ind2 (P : rtype → Prop) :
  (∀ k, P (TBasic k)) →
  (∀ e, P e → P (TSlice e)) →
  (∀ e, P e → P (TPtr e)) →
  (∀ n fs, Forall (onCalls P) fs → P (TStruct n fs)) →
  ∀ t, P t.
Proof.
  intros Hb Hs Hp Hst t.
  enough (P t ∧ ∀ e, t = TPtr e → P e) by tauto.
  induction t as [k|e [IH _]|e [IH _]|n fs IH] using rtype_ind'.
  - split; [apply Hb | done].
  - split; [by apply Hs | done].
  - split; [by apply Hp | by intros e' [= <-]].
  - split; [|done]. apply Hst. eapply Forall_impl; [exact IH|]. by intros f.
Qed.





(** ** Embedded pointers *)

Lemma mapFormFields_app rec form formfile errors l1 l2 i fl vs :
  mapFormFields rec form formfile errors (l1 ++ l2) i fl vs
  = mapFormFields rec form formfile errors l1 i fl vs
    ≫= mapFormFields rec form formfile errors l2 (i + length l1)%nat fl.
Proof.
  revert i vs. induction l1 as [|field l1 IH]; intros i vs; simpl.
  - by rewrite Nat.add_0_r.
  - replace (i + S (length l1))%nat with (S i + length l1)%nat by lia.
    destruct (Field vs i) as [structField|msg]; simpl; [|done].
    destruct (mapFormField _ _ _ _ _ _ _); simpl; [|done].
    apply IH.
Qed.

(** The loop from field i on leaves the fields before i alone and keeps the
    number of fields. *)
Lemma mapFormFields_before rec form formfile errors fields i fl vs vs' :
  mapFormFields rec form formfile errors fields i fl vs = Ok vs' →
  length vs' = length vs ∧ ∀ j, (j < i)%nat → vs' !! j = vs !! j.
Proof.
  revert i vs. induction fields as [|field rest IH]; intros i vs; simpl.
  - by intros [= <-].
  - intros H. apply bind_Ok_inv in H as (structField & _ & H).
    apply bind_Ok_inv in H as (new & _ & H).
    apply IH in H as [Hlen Hlt]. rewrite length_insert in Hlen. split; [done|].
    intros j Hj. rewrite Hlt by lia. apply list_lookup_insert_ne. lia.
Qed.

Lemma mapForm_struct_inv n fields formStruct fl form formfile errors out :
  mapForm (TStruct n fields) formStruct fl form formfile errors = Ok out →
  ∃ vs vs', formStruct = VStruct vs ∧ out = VStruct vs' ∧
    mapFormFields (λ t v f, mapForm t v f form formfile errors) form formfile errors
      fields 0 fl vs = Ok vs'.
Proof.
  simpl. destruct formStruct; try done.
  intros H. apply bind_Ok_inv in H as (vs' & H & [= <-]). eauto.
Qed.

Lemma Forall2_Zero (fs : list (StructField rtype)) (vs : list Value) :
  vs = map (λ f, Zero (Typ f)) fs ↔ Forall2 (λ f v, v = Zero (Typ f)) fs vs.
Proof.
  split.
  - intros ->. induction fs; constructor; auto.
  - induction 1 as [|f v fs vs -> _ IH]; simpl; [done | by rewrite IH].
Qed.

(** C2.  Let mapForm walk a struct whose field i is an embedded pointer to
    the struct type (en, efs).  The walk has run mapForm on a zero value of
    that struct type; with [inner] the fields that run left, field i is nil
    afterwards exactly when every field of [inner] is the zero value of its
    type, and holds a pointer to [inner] otherwise. *)
Theorem C2_embedded_pointer tn fields vs vs' i typeField en efs fl form formfile errors :
  fields !! i = Some typeField →
  Typ typeField = TPtr (TStruct en efs) →
  Anonymous typeField = true →
  mapForm (TStruct tn fields) (VStruct vs) fl form formfile errors = Ok (VStruct vs') →
  ∃ inner,
    mapForm (TStruct en efs) (Zero (TStruct en efs)) flagNone form formfile errors
    = Ok (VStruct inner) ∧
    (vs' !! i = Some VNilPtr ↔ Forall2 (λ f v, v = Zero (Typ f)) efs inner) ∧
    (vs' !! i = Some VNilPtr ∨ vs' !! i = Some (VPtr (VStruct inner))).
Proof.
  intros Hf Ht Hanon Hout.
  apply mapForm_struct_inv in Hout as (vs0 & vs0' & [= <-] & [= <-] & Hout).
  rewrite <- (take_drop_middle fields i typeField Hf) in Hout.
  rewrite mapFormFields_app in Hout.
  apply bind_Ok_inv in Hout as (vs1 & _ & Hout).
  rewrite length_take_le in Hout by (apply lookup_lt_Some in Hf; lia).
  simpl in Hout.
  apply bind_Ok_inv in Hout as (structField & Hsf & Hout).
  apply bind_Ok_inv in Hout as (new & Hnew & Hout).
  unfold mapFormField in Hnew. rewrite Ht, Hanon in Hnew.
  destruct (isRO _); [done|].
  apply bind_Ok_inv in Hnew as (innerV & Hinner & Hnew).
  destruct (mapForm_struct_inv _ _ _ _ _ _ _ _ Hinner) as (z & inner & _ & -> & _).
  exists inner. split; [exact Hinner|].
  apply mapFormFields_before in Hout as [Hlen Hlt].
  assert (Hi : vs' !! i = Some new).
  { rewrite Hlt by lia. apply list_lookup_insert_eq.
    unfold Field in Hsf. destruct (vs1 !! i) eqn:E; [|done].
    by apply lookup_lt_Some in E. }
  rewrite Hi. rewrite <- Forall2_Zero.
  destruct (DeepEqual (VStruct inner) (Zero (TStruct en efs))) eqn:E;
    injection Hnew as <-.
  - apply DeepEqual_eq in E. injection E as E. split; [by split | by left].
  - split; [|by right]. split; [done|]. intros ->.
    by rewrite DeepEqual_refl in E.
Qed.

(** The embedded pointer of EmbedPerson, with a name in the form and with
    an empty name. *)
Lemma C2_embedded_pointer_witness :
  ∃ inner,
    mapForm Person (Zero Person) flagNone {[ "name" := ["Glorious"] ]} ∅ []
    = Ok (VStruct inner) ∧
    ([VPtr (VStruct [VString "Glorious"; VString ""])] !! 0%nat = Some VNilPtr
     ↔ Forall2 (λ f v, v = Zero (Typ f))
         [mkField "Name" "" tString
            [("form", "name"); ("json", "name"); ("binding", "Required")] false;
          mkField "Email" "" tString [("form", "email"); ("json", "email")] false]
         inner) ∧
    ([VPtr (VStruct [VString "Glorious"; VString ""])] !! 0%nat = Some VNilPtr ∨
     [VPtr (VStruct [VString "Glorious"; VString ""])] !! 0%nat
     = Some (VPtr (VStruct inner))).
Proof.
  apply (C2_embedded_pointer "EmbedPerson"
           [mkField "Person" "" (TPtr Person) [] true] [VNilPtr]
           [VPtr (VStruct [VString "Glorious"; VString ""])] 0
           (mkField "Person" "" (TPtr Person) [] true) "Person" _ flagNone
           {[ "name" := ["Glorious"] ]} ∅ []).
  - reflexivity.
  - reflexivity.
  - reflexivity.
  - reflexivity.
Defined.

Example embedded_pointer_stays_nil :
  mapForm EmbedPerson (Zero EmbedPerson) flagNone {[ "name" := [""] ]} ∅ []
  = Ok (VStruct [VNilPtr]).
Proof. reflexivity. Qed.

(* ===================================================================== *)
(** * The walk returns *)
(* ===================================================================== *)

(** ** Well-typed values *)





Lemma rtype_eqb_eq (a b : rtype) : rtype_eqb a b = true → a = b.
Proof.
  revert b. induction a as [k|e IH|e IH|n fs IH] using rtype_ind';
    intros [k'|e'|e'|n' fs']; simpl; try done.
  - intros H. by apply bool_decide_eq_true in H as ->.
  - intros H. by rewrite (IH _ H).
  - intros H. by rewrite (IH _ H).
  - intros H. apply andb_true_iff in H as [Hn H]. apply String.eqb_eq in Hn as ->.
    f_equal. revert fs' H.
    induction IH as [|[nm pk ty tg an] fs Hf _ IHfs]; intros [|[nm' pk' ty' tg' an'] fs'];
      simpl; try done.
    intros H. repeat (apply andb_true_iff in H as [H ?]). simpl in Hf.
    apply String.eqb_eq in H as ->.
    match goal with H : String.eqb pk pk' = true |- _ => apply String.eqb_eq in H as -> end.
    match goal with H : tag_eqb tg tg' = true |- _ => apply bool_decide_eq_true in H as -> end.
    match goal with H : Bool.eqb an an' = true |- _ => apply Bool.eqb_prop in H as -> end.
    match goal with H : rtype_eqb ty ty' = true |- _ => apply Hf in H as -> end.
    f_equal. by apply IHfs.
Qed.

(** ** Requests whose keys all have a value *)


(** ** Schemas the walker can set *)



(** ** Validation returns *)

Lemma matchRule_total field zero fieldValue errors rule :
  ruleOk rule = true →
  ∃ out, matchRule field zero fieldValue errors rule = Ok out.
Proof.
  unfold ruleOk, matchRule. intros Hok.
  assert (Hcut : (9 <=? len rule) = true →
                 ∃ arg, sliceString rule 8 (len rule - 1) = Ok arg).
  { intros H. apply Z.leb_le in H. unfold sliceString.
    replace ((0 <=? 8) && (8 <=? len rule - 1) && (len rule - 1 <=? len rule))
      with true by (symmetry; rewrite !andb_true_iff, !Z.leb_le; lia).
    by eauto. }
  destruct (len rule =? 0); [by eauto|].
  destruct (String.eqb rule "Required"); [destruct (DeepEqual _ _); by eauto|].
  destruct (String.eqb rule "AlphaDash"); [destruct (MatchString _ _); by eauto|].
  destruct (String.eqb rule "AlphaDashDot"); [destruct (MatchString _ _); by eauto|].
  destruct (HasPrefix rule "MinSize(").
  { destruct (Hcut Hok) as [arg ->]. simpl.
    destruct (assertString _ _); [by eauto|]. destruct (_ && _); by eauto. }
  destruct (HasPrefix rule "MaxSize(").
  { destruct (Hcut Hok) as [arg ->]. simpl.
    destruct (assertString _ _); [by eauto|]. destruct (_ && _); by eauto. }
  destruct (String.eqb rule "Email"); [destruct (negb _); by eauto|].
  destruct (String.eqb rule "Url"); [|by eauto].
  destruct (len _ =? 0); [by eauto|]. destruct (negb _); by eauto.
Qed.






(* ===================================================================== *)
(** * The rules, the walk and the handlers: further properties *)
(* ===================================================================== *)

(** ** Substrings *)

Lemma prefix_app (p s : string) : String.prefix p s = true ↔ ∃ b, s = p ++ b.
Proof.
  revert s. induction p as [|c p IH]; intros s.
  - rewrite prefix_nil. split; [|done]. intros _. exists s. by rewrite string_app_nil_l.
  - destruct s as [|d s]; simpl.
    + split; [done|]. intros [b Hb]. by rewrite string_app_cons in Hb.
    + destruct (Ascii.ascii_dec c d) as [->|Hne].
      * rewrite IH. split; intros [b Hb]; exists b.
        -- by rewrite string_app_cons, Hb.
        -- rewrite string_app_cons in Hb. by injection Hb.
      * split; [done|]. intros [b Hb]. rewrite string_app_cons in Hb.
        injection Hb as -> _. done.
Qed.

Lemma Contains_spec (s substr : string) :
  Contains s substr = true ↔ ∃ a b, s = a ++ substr ++ b.
Proof.
  induction s as [|c s IH].
  - cbn [Contains]. unfold HasPrefix. rewrite orb_false_r, prefix_app. split.
    + intros [b Hb]. exists "", b. by rewrite string_app_nil_l.
    + intros (a & b & H). symmetry in H. apply string_app_nil_inv in H as [-> H].
      by exists b.
  - cbn [Contains]. unfold HasPrefix. rewrite orb_true_iff, prefix_app, IH. split.
    + intros [[b Hb]|(a & b & Hb)].
      * exists "", b. by rewrite string_app_nil_l.
      * exists (String c a), b. by rewrite string_app_cons, Hb.
    + intros (a & b & H). destruct a as [|d a].
      * left. exists b. by rewrite string_app_nil_l in H.
      * right. rewrite string_app_cons in H. injection H as -> ->. by exists a, b.
Qed.

Lemma string_app_assoc (a b c : string) : (a ++ b) ++ c = a ++ b ++ c.
Proof.
  induction a as [|x a IH]; [by rewrite !string_app_nil_l|].
  by rewrite !string_app_cons, IH.
Qed.

(** ** The matcher on the patterns of the package *)

Lemma matchPrefix_Fail s : matchPrefix Fail s = false.
Proof. by destruct s. Qed.

Lemma MatchString_Class p s : MatchString (Class p) s = anyByte p s.
Proof.
  induction s as [|c s IH]; [done|].
  rewrite MatchString_unfold, IH. simpl.
  destruct (p c); simpl; [by destruct s|].
  by rewrite matchPrefix_Fail.
Qed.

Lemma matches_Lit s t : matches (Lit s) t → t = s.
Proof.
  revert t. induction s as [|c s IH]; intros t H; simpl in H.
  - by apply matches_Eps_inv.
  - apply matches_Cat_inv in H as (t1 & t2 & -> & H1 & H2).
    apply matches_Class_inv in H1 as (d & -> & Hd).
    apply Ascii.eqb_eq in Hd as ->. apply IH in H2 as ->.
    by rewrite string_app_cons, string_app_nil_l.
Qed.

Lemma urlPattern_scheme s :
  MatchString urlPattern s = true →
  Contains s "http://" = true ∨ Contains s "https://" = true.
Proof.
  intros H. apply MatchString_spec in H as (s0 & s1 & s2 & -> & H).
  unfold urlPattern in H.
  apply matches_Cat_inv in H as (a & r1 & -> & Ha & H).
  apply matches_Cat_inv in H as (b & r2 & -> & Hb & _).
  apply matches_Lit in Hb as ->.
  apply matches_Alt_inv in Ha as [Ha|Ha]; apply matches_Lit in Ha as ->.
  - left. apply Contains_spec. exists s0, (r2 ++ s2).
    by rewrite !string_app_assoc.
  - right. apply Contains_spec. exists s0, (r2 ++ s2).
    by rewrite !string_app_assoc.
Qed.

Lemma emailPattern_at s :
  MatchString emailPattern s = true → Contains s "@" = true.
Proof.
  intros H. apply MatchString_spec in H as (s0 & s1 & s2 & -> & H).
  unfold emailPattern in H.
  apply matches_Cat_inv in H as (a & r1 & -> & _ & H).
  apply matches_Cat_inv in H as (b & r2 & -> & _ & H).
  apply matches_Cat_inv in H as (c & r3 & -> & Hc & _).
  apply matches_Class_inv in Hc as (d & -> & Hd). apply Ascii.eqb_eq in Hd as <-.
  apply Contains_spec. exists (s0 ++ a ++ b), (r3 ++ s2).
  by rewrite !string_app_assoc.
Qed.

(** ** Runes *)

Lemma RuneCountInString_pos_aux (n : nat) :
  ∀ s, (String.length s ≤ n)%nat →
    0 <= RuneCountInString s ∧ (s ≠ "" → 1 <= RuneCountInString s).
Proof.
  induction n as [|n IH]; intros s Hlen.
  - destruct s; [|simpl in Hlen; lia]. simpl. split; [lia | done].
  - destruct s as [|c r0]; [simpl; split; [lia | done]|].
    simpl in Hlen.
    assert (H0 : 0 <= RuneCountInString r0) by (apply IH; lia).
    enough (1 <= RuneCountInString (String c r0)) by (split; [lia | done]).
    cbn [RuneCountInString].
    destruct (byteval c <? 128); [lia|].
    destruct (first c) as [[[size lo] hi]|]; [|lia].
    destruct r0 as [|c1 r1]; [lia|].
    destruct (negb (inRange lo hi c1)); [lia|].
    simpl in Hlen.
    assert (H1 : 0 <= RuneCountInString r1) by (apply IH; lia).
    destruct (Nat.eqb size 2); [lia|].
    destruct r1 as [|c2 r2]; [lia|].
    destruct (negb (isCont c2)); [lia|].
    simpl in Hlen.
    assert (H2 : 0 <= RuneCountInString r2) by (apply IH; lia).
    destruct (Nat.eqb size 3); [lia|].
    destruct r2 as [|c3 r3]; [lia|].
    destruct (negb (isCont c3)); [lia|].
    simpl in Hlen.
    assert (H3 : 0 <= RuneCountInString r3) by (apply IH; lia).
    lia.
Qed.

Lemma RuneCountInString_nonneg s : 0 <= RuneCountInString s.
Proof. by apply (RuneCountInString_pos_aux (String.length s)). Qed.

Lemma RuneCountInString_pos s : s ≠ "" → 1 <= RuneCountInString s.
Proof. by apply (RuneCountInString_pos_aux (String.length s)). Qed.

Lemma Len_nonneg v : 0 <= Len v.
Proof. destruct v; simpl; lia. Qed.

Lemma Atoi_syntax arg : (Atoi arg).2 = Some ErrSyntax → (Atoi arg).1 = 0.
Proof.
  unfold Atoi, ParseInt. destruct arg as [|c s]; [done|].
  destruct (ParseUint _ 0) as [un [[]|]]; simpl; [done| |];
    repeat (case_match; simpl; try done).
Qed.

(** ** The rules on the printed value *)

Lemma alphaDash_class c :
  negb (perlDigit c || perlWord c || memString "-_" c) = negb (isAlphaDash c).
Proof.
  unfold perlDigit, perlWord, isAlphaDash. simpl.
  destruct (inRange 48 57 c), (inRange 65 90 c), (inRange 97 122 c),
    (Ascii.eqb c "_"), (Ascii.eqb c "-"); reflexivity.
Qed.

Lemma alphaDashDot_class c :
  negb (perlDigit c || perlWord c || memString "-_." c)
  = negb (isAlphaDash c || Ascii.eqb c ".").
Proof.
  unfold perlDigit, perlWord, isAlphaDash. simpl.
  destruct (inRange 48 57 c), (inRange 65 90 c), (inRange 97 122 c),
    (Ascii.eqb c "_"), (Ascii.eqb c "-"), (Ascii.eqb c "."); reflexivity.
Qed.

Lemma anyByte_ext p q s : (∀ c, p c = q c) → anyByte p s = anyByte q s.
Proof. intros H. induction s as [|c s IH]; simpl; [done|]. by rewrite H, IH. Qed.

(** X1: AlphaDash appends its error exactly when the printed value holds a
    byte that is no ASCII letter, digit, underscore or dash, and
    AlphaDashDot exactly when it holds a byte that is none of these and no
    dot.  The empty text passes both; a byte of a non-ASCII letter fails
    both. *)
Theorem alphaDash_rules_bytes field zero fieldValue errors :
  matchRule field zero fieldValue errors "AlphaDash"
  = Ok (if anyByte (λ c, negb (isAlphaDash c)) (Sprintf_v fieldValue)
        then Add errors [Name field] AlphaDashError "AlphaDash" else errors) ∧
  matchRule field zero fieldValue errors "AlphaDashDot"
  = Ok (if anyByte (λ c, negb (isAlphaDash c || Ascii.eqb c ".")) (Sprintf_v fieldValue)
        then Add errors [Name field] AlphaDashDotError "AlphaDashDot" else errors).
Proof.
  split.
  - rewrite <- (anyByte_ext _ _ _ alphaDash_class), <- MatchString_Class.
    unfold matchRule. simpl. by destruct (MatchString _ _).
  - rewrite <- (anyByte_ext _ _ _ alphaDashDot_class), <- MatchString_Class.
    unfold matchRule. simpl. by destruct (MatchString _ _).
Qed.

(** X2: the rule Url on a printed value that is not empty and holds neither
    the text http:// nor https:// appends the Url error. *)
Theorem url_rule_needs_scheme field zero fieldValue errors :
  Sprintf_v fieldValue ≠ "" →
  Contains (Sprintf_v fieldValue) "http://" = false →
  Contains (Sprintf_v fieldValue) "https://" = false →
  matchRule field zero fieldValue errors "Url"
  = Ok (Add errors [Name field] UrlError "Url").
Proof.
  intros Hne Hhttp Hhttps. rewrite matchRule_Url.
  destruct (len _ =? 0) eqn:E; [by apply len_eq_0 in E|].
  destruct (MatchString urlPattern _) eqn:Em; [|done].
  apply urlPattern_scheme in Em as [Em|Em]; congruence.
Qed.

Lemma url_rule_needs_scheme_witness :
  matchRule Profile_Homepage (VString "") (VString "ftp://example.com/a") [] "Url"
  = Ok (Add [] ["Homepage"] UrlError "Url").
Proof.
  apply (url_rule_needs_scheme Profile_Homepage (VString "")
           (VString "ftp://example.com/a") []).
  - discriminate.
  - reflexivity.
  - reflexivity.
Defined.

(** X3: the rule Email on a printed value without an at sign appends the
    Email error; the empty text is such a value. *)
Theorem email_rule_needs_at field zero fieldValue errors :
  Contains (Sprintf_v fieldValue) "@" = false →
  matchRule field zero fieldValue errors "Email"
  = Ok (Add errors [Name field] EmailError "Email").
Proof.
  intros Hat. unfold matchRule. simpl.
  destruct (MatchString emailPattern _) eqn:Em; [|done].
  apply emailPattern_at in Em. congruence.
Qed.

Lemma email_rule_needs_at_witness :
  matchRule Profile_Homepage (VString "") (VString "") [] "Email"
  = Ok (Add [] ["Homepage"] EmailError "Email").
Proof.
  apply (email_rule_needs_at Profile_Homepage (VString "") (VString "") []).
  reflexivity.
Defined.

(** X4: a size rule whose argument is no decimal number reads it as 0.
    MinSize then appends nothing, whatever the value; MaxSize appends its
    error exactly for a string that is not empty and for a slice that has an
    element. *)
Theorem size_rule_bad_argument field zero fieldValue errors arg :
  (Atoi arg).2 = Some ErrSyntax →
  matchRule field zero fieldValue errors ("MinSize(" ++ arg ++ ")") = Ok errors ∧
  matchRule field zero fieldValue errors ("MaxSize(" ++ arg ++ ")")
  = Ok (if assertString fieldValue (λ str, negb (String.eqb str "")) || (0 <? Len fieldValue)
        then Add errors [Name field] MaxSizeError "MaxSize" else errors).
Proof.
  intros Hsyn. apply Atoi_syntax in Hsyn.
  rewrite matchRule_MinSize, matchRule_MaxSize, Hsyn. split.
  - replace (assertString fieldValue _) with false.
    + replace (Len fieldValue <? 0) with false; [by rewrite andb_false_r|].
      symmetry. apply Z.ltb_ge. apply Len_nonneg.
    + destruct fieldValue; try done. simpl. symmetry. apply Z.ltb_ge.
      apply RuneCountInString_nonneg.
  - replace (assertString fieldValue (λ str, RuneCountInString str >? 0))
      with (assertString fieldValue (λ str, negb (String.eqb str ""))).
    + replace (isSliceValue fieldValue && (Len fieldValue >? 0)) with (0 <? Len fieldValue);
        [done|].
      rewrite Z.gtb_ltb. destruct fieldValue; simpl; try done.
    + destruct fieldValue as [| | |s| | | | |]; try done. simpl.
      destruct (String.eqb_spec s "") as [->|Hne]; [done|].
      simpl. symmetry. apply Z.gtb_lt. pose proof (RuneCountInString_pos s Hne). lia.
Qed.

Lemma size_rule_bad_argument_witness :
  matchRule Profile_Homepage (VString "") (VString "abc") [] ("MinSize(" ++ "five" ++ ")")
  = Ok [] ∧
  matchRule Profile_Homepage (VString "") (VString "abc") [] ("MaxSize(" ++ "five" ++ ")")
  = Ok (if assertString (VString "abc") (λ str, negb (String.eqb str ""))
           || (0 <? Len (VString "abc"))
        then Add [] ["Homepage"] MaxSizeError "MaxSize" else []).
Proof.
  apply (size_rule_bad_argument Profile_Homepage (VString "") (VString "abc") [] "five").
  reflexivity.
Defined.

Lemma prefix_short (p s : string) :
  String.prefix p s = true → (String.length s ≤ String.length p)%nat → s = p.
Proof.
  intros Hp Hlen. apply prefix_app in Hp as [b ->].
  rewrite length_app_string in Hlen. destruct b; [by rewrite string_app_nil_r|].
  simpl in Hlen. lia.
Qed.

(** X5: a rule makes validation panic exactly when it is the bare text
    MinSize( or MaxSize( : the argument is cut at rule[8 : len(rule)-1],
    which is out of bounds for these two texts alone. *)
Theorem matchRule_panics field zero fieldValue errors rule :
  (∃ msg, matchRule field zero fieldValue errors rule = Panic msg)
  ↔ rule = "MinSize(" ∨ rule = "MaxSize(".
Proof.
  split.
  - intros [msg Hp]. destruct (ruleOk rule) eqn:Eok.
    { destruct (matchRule_total field zero fieldValue errors rule Eok) as [out Hout].
      congruence. }
    unfold ruleOk in Eok.
    destruct (HasPrefix rule "MinSize(") eqn:Emin; simpl in Eok.
    + left. apply prefix_short; [done|]. apply Z.leb_gt in Eok. unfold len in Eok.
      simpl. lia.
    + destruct (HasPrefix rule "MaxSize(") eqn:Emax; [|done].
      right. apply prefix_short; [done|]. apply Z.leb_gt in Eok. unfold len in Eok.
      simpl. lia.
  - intros [->| ->]; eexists; reflexivity.
Qed.

(** ** What the validator appends *)

Lemma matchRule_rule_errors field zero fieldValue errors rule out :
  Forall (λ e, isRuleError e = true) errors →
  matchRule field zero fieldValue errors rule = Ok out →
  Forall (λ e, isRuleError e = true) out.
Proof.
  intros HQ H.
  assert (Hadd : ∀ c m, isRuleError (mkError [Name field] c m) = true →
            Forall (λ e, isRuleError e = true) (Add errors [Name field] c m)).
  { intros c m Hc. unfold Add. apply Forall_app. split; [done|]. by constructor. }
  unfold matchRule in H.
  repeat match type of H with
  | (if ?c then _ else _) = Ok _ => destruct c
  | Ok _ = Ok _ => injection H as <-
  | (_ ≫= _) = Ok _ => apply bind_Ok_inv in H as (? & _ & H); cbv beta zeta in H
  end; first [done | by apply Hadd].
Qed.

Lemma matchRules_rule_errors field zero fieldValue rules errors out :
  Forall (λ e, isRuleError e = true) errors →
  matchRules field zero fieldValue rules errors = Ok out →
  Forall (λ e, isRuleError e = true) out.
Proof.
  revert errors. induction rules as [|rule rest IH]; intros errors HQ H; simpl in H.
  - by injection H as <-.
  - apply bind_Ok_inv in H as (e1 & H1 & H).
    eapply IH; [|exact H]. by eapply matchRule_rule_errors.
Qed.

Lemma validateFields_rule_errors rec fields :
  Forall (λ f, ∀ errors v out, Forall (λ e, isRuleError e = true) errors →
            rec errors (Typ f) v = Ok out → Forall (λ e, isRuleError e = true) out) fields →
  ∀ i val errors out,
    Forall (λ e, isRuleError e = true) errors →
    validateFields rec fields i val errors = Ok out →
    Forall (λ e, isRuleError e = true) out.
Proof.
  induction 1 as [|f fields Hf _ IH]; intros i val errors out HQ H; simpl in H.
  - by injection H as <-.
  - destruct (String.eqb (Get (Tag f) "form") "-"); [by eapply IH|].
    apply bind_Ok_inv in H as (fieldValue & _ & H).
    destruct (negb (CanInterface _)); [by eapply IH|].
    apply bind_Ok_inv in H as (e1 & H1 & H).
    apply bind_Ok_inv in H as (e2 & H2 & H).
    eapply IH; [|exact H]. eapply matchRules_rule_errors; [|exact H2].
    destruct (Typ f) as [k|e|e|n fs].
    + by injection H1 as <-.
    + by injection H1 as <-.
    + destruct (_ && _); [by eapply Hf | by injection H1 as <-].
    + by eapply Hf.
Qed.

Lemma validateStruct_rule_errors_both t :
  (∀ errors v out, Forall (λ e, isRuleError e = true) errors →
     validateStruct errors t v = Ok out → Forall (λ e, isRuleError e = true) out) ∧
  (∀ errors v out, Forall (λ e, isRuleError e = true) errors →
     validateStruct errors (TPtr t) v = Ok out → Forall (λ e, isRuleError e = true) out).
Proof.
  induction t as [k|e IH|e IH|n fs IH] using rtype_ind'; try (split; done).
  - split; [apply IH | done].
  - assert (Hfs : ∀ i val errors out, Forall (λ e, isRuleError e = true) errors →
              validateFields validateStruct fs i val errors = Ok out →
              Forall (λ e, isRuleError e = true) out).
    { apply validateFields_rule_errors. eapply Forall_impl; [exact IH|].
      intros f [Hf _]. exact Hf. }
    split; intros errors v out HQ H; simpl in H; by eapply Hfs.
Qed.

(** X6: validateStruct keeps the list it is handed and appends to it; what
    it appends, and whether it panics, does not depend on that list. *)
Theorem validateStruct_keeps_errors errors t v :
  validateStruct errors t v = (λ new, errors ++ new)%list <$> validateStruct [] t v.
Proof. apply validateStruct_appends. Qed.

(** X7: every error that validateStruct appends names exactly one field and
    carries the classification and the message of one of the seven rules:
    no error of the validator is a deserialization, content-type or
    coercion error, and none has a path of several names. *)
Theorem validateStruct_rule_errors errors t v out :
  validateStruct errors t v = Ok out →
  ∃ new, out = (errors ++ new)%list ∧ Forall (λ e, isRuleError e = true) new.
Proof.
  intros H. rewrite validateStruct_appends in H.
  apply fmap_Ok_inv in H as (new & Hnew & ->). exists new. split; [done|].
  destruct (validateStruct_rule_errors_both t) as [Ht _].
  eapply Ht; [|exact Hnew]. constructor.
Qed.

Lemma validateStruct_rule_errors_witness :
  ∃ new,
    [mkError ["Id"] RequiredError "Required"] = ([] ++ new)%list ∧
    Forall (λ e, isRuleError e = true) new.
Proof.
  apply (validateStruct_rule_errors [] BlogPost
           (vBlog (vPost "Behold The Title!" "And some content") 0
              (vPerson "Matt Holt" "") VNilPtr)).
  reflexivity.
Defined.

(** ** The fields validation reads *)

Lemma skipped_form_or_ro f :
  skipped f = false ↔
  String.eqb (Get (Tag f) "form") "-" = false ∧
  negb (CanInterface (fieldFlag flagNone f)) = false.
Proof.
  unfold skipped, CanInterface, isRO, fieldFlag.
  destruct (String.eqb (Get (Tag f) "form") "-"), (String.eqb (PkgPath f) ""),
    (Anonymous f); simpl; intuition congruence.
Qed.

Lemma validateFields_reads rec fields :
  ∀ i vs vs' errors,
    length vs = length vs' →
    (∀ j f, fields !! j = Some f → skipped f = false →
       vs !! (i + j)%nat = vs' !! (i + j)%nat) →
    validateFields rec fields i (Some vs) errors
    = validateFields rec fields i (Some vs') errors.
Proof.
  induction fields as [|f fields IH]; intros i vs vs' errors Hlen Hagree; simpl; [done|].
  assert (Hnext : ∀ errors',
    validateFields rec fields (S i) (Some vs) errors'
    = validateFields rec fields (S i) (Some vs') errors').
  { intros errors'. apply IH; [done|]. intros j g Hj Hg.
    replace (S i + j)%nat with (i + S j)%nat by lia. by apply (Hagree (S j) g). }
  destruct (String.eqb (Get (Tag f) "form") "-") eqn:Eform; [apply Hnext|].
  destruct (negb (CanInterface (fieldFlag flagNone f))) eqn:Ero.
  - unfold Field. destruct (vs !! i) as [x|] eqn:E, (vs' !! i) as [x'|] eqn:E'; simpl.
    + apply Hnext.
    + apply lookup_lt_Some in E. apply lookup_ge_None in E'. lia.
    + apply lookup_lt_Some in E'. apply lookup_ge_None in E. lia.
    + done.
  - assert (Hi : vs !! i = vs' !! i).
    { specialize (Hagree 0%nat f eq_refl). rewrite Nat.add_0_r in Hagree.
      apply Hagree. by apply skipped_form_or_ro. }
    unfold Field. rewrite Hi. destruct (vs' !! i) as [x|]; simpl; [|done].
    destruct (match Typ f with TStruct _ _ => _ | _ => _ end) as [e1|]; simpl; [|done].
    destruct (matchRules _ _ _ _ _) as [e2|]; simpl; [|done].
    apply Hnext.
Qed.

(** X8: validation reads only the fields that are exported and not tagged
    form "-": two structs of equally many fields that agree on those fields
    get the same result, whatever the other fields hold. *)
Theorem validateStruct_reads n fields vs vs' errors :
  length vs = length vs' →
  (∀ j f, fields !! j = Some f → skipped f = false → vs !! j = vs' !! j) →
  validateStruct errors (TStruct n fields) (VStruct vs)
  = validateStruct errors (TStruct n fields) (VStruct vs').
Proof.
  intros Hlen Hagree. simpl. by apply validateFields_reads.
Qed.

Lemma validateStruct_reads_witness :
  validateStruct [] Account (VStruct [VString ""])
  = validateStruct [] Account (VStruct [VString "secret"]).
Proof.
  apply (validateStruct_reads "Account" [Account_Token] [VString ""] [VString "secret"] []).
  - reflexivity.
  - intros [|j] f Hf Hs; [|done]. injection Hf as <-. discriminate Hs.
Defined.

(** ** What the walk depends on *)

Lemma setWithProperType_field valueKind val structField nameInTag errors errors' :
  fst <$> setWithProperType valueKind val structField nameInTag errors
  = fst <$> setWithProperType valueKind val structField nameInTag errors'.
Proof.
  unfold setWithProperType.
  destruct valueKind; try done;
    repeat first [done | case_match | destruct (SetInt _ _) | destruct (SetUint _ _)
                 | destruct (SetBool _ _) | destruct (SetString _ _)].
Qed.

Lemma bind_fst {A B C} (r r' : Result (A * B)) (k : A → Result C) :
  fst <$> r = fst <$> r' →
  ('(a, _) ← r; k a) = ('(a, _) ← r'; k a).
Proof. destruct r as [[a b]|m], r' as [[a' b']|m']; simpl; congruence. Qed.

Lemma fillSlice_errors sliceOf inputValue i slice inputFieldName errors errors' :
  fillSlice sliceOf inputValue i slice inputFieldName errors
  = fillSlice sliceOf inputValue i slice inputFieldName errors'.
Proof.
  revert i slice. induction inputValue as [|raw rest IH]; intros i slice; simpl; [done|].
  destruct (index slice i) as [x|]; simpl; [|done].
  pose proof (setWithProperType_field sliceOf raw x inputFieldName errors errors') as H.
  destruct (setWithProperType sliceOf raw x inputFieldName errors) as [[a b]|m],
           (setWithProperType sliceOf raw x inputFieldName errors') as [[a' b']|m'];
    simpl in *; congruence.
Qed.

Lemma mapFormLeaf_reads typeField structField fl form form' formfile formfile'
    errors errors' :
  (Get (Tag typeField) "form" ≠ "" →
   form !! Get (Tag typeField) "form" = form' !! Get (Tag typeField) "form" ∧
   formfile !! Get (Tag typeField) "form" = formfile' !! Get (Tag typeField) "form") →
  mapFormLeaf typeField structField fl form formfile errors
  = mapFormLeaf typeField structField fl form' formfile' errors'.
Proof.
  intros Hk. unfold mapFormLeaf.
  destruct (String.eqb_spec (Get (Tag typeField) "form") "") as [|Hne]; [done|].
  destruct (Hk Hne) as [<- <-].
  destruct (negb _); [done|].
  destruct (form !! Get (Tag typeField) "form") as [inputValue|]; [|done].
  destruct (_ && _).
  - destruct (Elem _); simpl; [|done].
    by rewrite (fillSlice_errors _ _ _ _ _ errors errors').
  - destruct (index inputValue 0) as [raw|]; simpl; [|done].
    apply bind_fst, setWithProperType_field.
Qed.

Lemma mapFormFields_ext2 rec rec' form form' formfile formfile' errors errors' fields :
  Forall (λ f, ∀ x ffl,
    mapFormField rec form formfile errors f x ffl
    = mapFormField rec' form' formfile' errors' f x ffl) fields →
  ∀ i fl vs,
    mapFormFields rec form formfile errors fields i fl vs
    = mapFormFields rec' form' formfile' errors' fields i fl vs.
Proof.
  induction 1 as [|field rest Hf _ IH]; intros i fl vs; simpl; [done|].
  destruct (Field vs i) as [structField|msg]; simpl; [|done].
  rewrite Hf. destruct (mapFormField rec' _ _ _ _ _ _); simpl; [|done].
  apply IH.
Qed.

Lemma formKeys_field n fs f k :
  f ∈ fs →
  k ∈ match Typ f with
      | TPtr e =>
          if Anonymous f then formKeys e
          else if String.eqb (Get (Tag f) "form") "" then [] else [Get (Tag f) "form"]
      | TStruct _ _ => formKeys (Typ f)
      | _ => if String.eqb (Get (Tag f) "form") "" then [] else [Get (Tag f) "form"]
      end →
  k ∈ formKeys (TStruct n fs).
Proof.
  intros Hf Hk. cbn [formKeys]. apply list_elem_of_In, in_flat_map.
  exists f. split; by apply list_elem_of_In.
Qed.

Lemma formKeys_leaf n fs f :
  f ∈ fs → isLeaf f = true → Get (Tag f) "form" ≠ "" →
  Get (Tag f) "form" ∈ formKeys (TStruct n fs).
Proof.
  intros Hf Hleaf Hne. apply (formKeys_field n fs f); [done|].
  apply String.eqb_neq in Hne. unfold isLeaf in Hleaf.
  destruct (Typ f); try done; [| |destruct (Anonymous f); [done|]];
    rewrite Hne; by apply list_elem_of_singleton.
Qed.

Lemma mapForm_agree t formStruct fl form form' formfile formfile' errors errors' :
  (∀ k, k ∈ formKeys t → form !! k = form' !! k ∧ formfile !! k = formfile' !! k) →
  mapForm t formStruct fl form formfile errors
  = mapForm t formStruct fl form' formfile' errors'.
Proof.
  revert formStruct fl.
  induction t as [k|e IH|e IH|n fs IH] using rtype_ind2; intros formStruct fl Hk;
    try done.
  - destruct e as [k|e'|e'|n fs]; try done.
    destruct formStruct as [| | | | | | |[]|]; try done.
    specialize (IH (VStruct fields) fl Hk). cbn [mapForm] in *.
    destruct (mapFormFields _ form formfile _ _ _ _ _) as [a|m],
             (mapFormFields _ form' formfile' _ _ _ _ _) as [a'|m']; simpl in *; congruence.
  - cbn [mapForm]. destruct formStruct; try done.
    rewrite (mapFormFields_ext2 _ (λ t v f, mapForm t v f form' formfile' errors')
               form form' formfile formfile' errors errors' fs); [done|].
    rewrite Forall_forall in IH. apply Forall_forall. intros f Hf x ffl.
    destruct (IH f Hf) as [IHf IHe].
    pose proof (formKeys_field n fs f) as Hin.
    unfold mapFormField. destruct (Typ f) as [k|e|e|sn sfs] eqn:Etyp.
    + apply mapFormLeaf_reads. intros Hne. apply Hk, (formKeys_leaf n fs f); try done.
      unfold isLeaf. by rewrite Etyp.
    + apply mapFormLeaf_reads. intros Hne. apply Hk, (formKeys_leaf n fs f); try done.
      unfold isLeaf. by rewrite Etyp.
    + destruct (Anonymous f) eqn:Ea.
      * destruct (isRO ffl); [done|].
        rewrite (IHe e eq_refl (Zero e) flagNone); [done|].
        intros k Hke. by apply Hk, Hin.
      * apply mapFormLeaf_reads. intros Hne. apply Hk, (formKeys_leaf n fs f); try done.
        unfold isLeaf. by rewrite Etyp, Ea.
    + apply IHf. intros k Hke. by apply Hk, Hin.
Qed.

(** X9: the walk reads the two maps at the keys of the schema and nowhere
    else, and does not read the list of errors: two requests that agree on
    the keys of the schema leave the same struct (or the same panic),
    whatever their other keys hold and whatever list is passed in. *)
Theorem mapForm_reads t formStruct fl form form' formfile formfile' errors errors' :
  (∀ k, k ∈ formKeys t → form !! k = form' !! k ∧ formfile !! k = formfile' !! k) →
  mapForm t formStruct fl form formfile errors
  = mapForm t formStruct fl form' formfile' errors'.
Proof. apply mapForm_agree. Qed.

Lemma mapForm_reads_witness :
  mapForm Person (Zero Person) flagNone {[ "name" := ["Ann"] ]} ∅ []
  = mapForm Person (Zero Person) flagNone {[ "name" := ["Ann"]; "admin" := ["1"] ]} ∅
      [mkError [] DeserializationError "x"].
Proof.
  apply (mapForm_reads Person (Zero Person) flagNone).
  intros k Hk. split; [|done].
  apply elem_of_cons in Hk as [->|Hk]; [reflexivity|].
  apply elem_of_cons in Hk as [->|Hk]; [reflexivity|].
  by apply elem_of_nil in Hk.
Defined.

(** ** A request without the keys of the schema *)

Lemma mapFormLeaf_absent typeField structField fl form formfile errors :
  (Get (Tag typeField) "form" ≠ "" →
   form !! Get (Tag typeField) "form" = None ∧
   formfile !! Get (Tag typeField) "form" = None) →
  mapFormLeaf typeField structField fl form formfile errors = Ok structField.
Proof.
  intros Hk. unfold mapFormLeaf.
  destruct (String.eqb_spec (Get (Tag typeField) "form") "") as [|Hne]; [done|].
  destruct (Hk Hne) as [-> ->]. by destruct (negb _).
Qed.

Lemma mapFormFields_id rec form formfile errors fl fields :
  Forall (λ f, mapFormField rec form formfile errors f (Zero (Typ f)) (fieldFlag fl f)
               = Ok (Zero (Typ f))) fields →
  ∀ pre,
    mapFormFields rec form formfile errors fields (length pre) fl
      (pre ++ map (λ f, Zero (Typ f)) fields)%list
    = Ok (pre ++ map (λ f, Zero (Typ f)) fields)%list.
Proof.
  induction 1 as [|f fields Hf _ IH]; intros pre; [done|]. cbn [mapFormFields map].
  unfold Field. rewrite lookup_app_r, Nat.sub_diag by lia. simpl.
  rewrite Hf. simpl. rewrite insert_app_r_alt, Nat.sub_diag by lia. simpl.
  specialize (IH (pre ++ [Zero (Typ f)])%list).
  rewrite length_app in IH. simpl in IH.
  by rewrite Nat.add_1_r, <- !app_assoc in IH.
Qed.

(** X10: where the request holds none of the keys of the schema, the walk of
    a fresh struct of a settable schema leaves the zero value: every field
    keeps its zero, and every embedded pointer is nil again. *)
Theorem mapForm_without_keys t fl form formfile errors :
  bindable fl t = true →
  (∀ k, k ∈ formKeys t → form !! k = None ∧ formfile !! k = None) →
  mapForm t (Zero t) fl form formfile errors = Ok (Zero t).
Proof.
  revert fl.
  induction t as [k|e IH|e IH|n fs IH] using rtype_ind2; intros fl Hb Hk; try done.
  cbn [mapForm Zero].
  enough (Hfs : Forall (λ f,
            mapFormField (λ t v f, mapForm t v f form formfile errors) form formfile errors
              f (Zero (Typ f)) (fieldFlag fl f) = Ok (Zero (Typ f))) fs).
  { pose proof (mapFormFields_id _ form formfile errors fl fs Hfs []) as Hid.
    simpl in Hid. by rewrite Hid. }
  simpl in Hb. rewrite forallb_forall in Hb.
  rewrite Forall_forall in IH. apply Forall_forall. intros f Hf.
  specialize (Hb f ltac:(by apply list_elem_of_In)).
  destruct (IH f Hf) as [IHf IHe].
  pose proof (formKeys_field n fs f) as Hin.
  pose proof (formKeys_leaf n fs f Hf) as Hleaf. unfold isLeaf in Hleaf.
  unfold mapFormField. destruct (Typ f) as [k|e|e|sn sfs] eqn:Etyp.
  - rewrite <- Etyp. apply mapFormLeaf_absent. intros Hne. by apply Hk, Hleaf.
  - rewrite <- Etyp. apply mapFormLeaf_absent. intros Hne. by apply Hk, Hleaf.
  - destruct (Anonymous f) eqn:Ea.
    + apply andb_true_iff in Hb as [Hb Hbe]. apply andb_true_iff in Hb as [Hro _].
      apply negb_true_iff in Hro. rewrite Hro.
      rewrite (IHe e eq_refl flagNone Hbe); [|intros k Hke; by apply Hk, Hin].
      simpl. by rewrite DeepEqual_refl.
    + rewrite <- Etyp. apply mapFormLeaf_absent. intros Hne. by apply Hk, Hleaf.
  - apply IHf; [done|]. intros k Hke. by apply Hk, Hin.
Qed.

Lemma mapForm_without_keys_witness :
  mapForm EmbedPerson (Zero EmbedPerson) flagNone {[ "title" := ["x"] ]} ∅ []
  = Ok (Zero EmbedPerson).
Proof.
  apply (mapForm_without_keys EmbedPerson flagNone {[ "title" := ["x"] ]} ∅ []).
  - reflexivity.
  - intros k Hk.
    apply elem_of_cons in Hk as [->|Hk]; [by split|].
    apply elem_of_cons in Hk as [->|Hk]; [by split|].
    by apply elem_of_nil in Hk.
Defined.

(** ** Fields the walk cannot write *)

Lemma mapFormFields_after rec form formfile errors fields i fl vs vs' :
  mapFormFields rec form formfile errors fields i fl vs = Ok vs' →
  ∀ j, (i + length fields ≤ j)%nat → vs' !! j = vs !! j.
Proof.
  revert i vs. induction fields as [|field rest IH]; intros i vs; simpl.
  - by intros [= <-].
  - intros H j Hj. apply bind_Ok_inv in H as (structField & _ & H).
    apply bind_Ok_inv in H as (new & _ & H).
    rewrite (IH _ _ H) by lia. apply list_lookup_insert_ne. lia.
Qed.

(** X11: a field that the loop handles itself (no struct, no embedded
    pointer) and that has no form tag, or is unexported, holds after the
    walk what it held before, whatever the request carries. *)
Theorem mapForm_keeps_field tn fields vs vs' i f fl form formfile errors :
  fields !! i = Some f →
  isLeaf f = true →
  Get (Tag f) "form" = "" ∨ PkgPath f ≠ "" →
  mapForm (TStruct tn fields) (VStruct vs) fl form formfile errors = Ok (VStruct vs') →
  vs' !! i = vs !! i.
Proof.
  intros Hf Hleaf Hcannot Hout.
  apply mapForm_struct_inv in Hout as (vs0 & vs0' & [= <-] & [= <-] & Hout).
  rewrite <- (take_drop_middle fields i f Hf) in Hout.
  rewrite mapFormFields_app in Hout.
  apply bind_Ok_inv in Hout as (vs1 & Hfirst & Hout).
  assert (Hi : (length (take i fields) = i)%nat).
  { apply length_take_le. apply lookup_lt_Some in Hf. lia. }
  rewrite Hi in Hout. simpl in Hout.
  apply bind_Ok_inv in Hout as (structField & Hsf & Hout).
  apply bind_Ok_inv in Hout as (new & Hnew & Hout).
  assert (Hsame : new = structField).
  { unfold mapFormField in Hnew. unfold isLeaf in Hleaf.
    assert (Hl : mapFormLeaf f structField (fieldFlag fl f) form formfile errors
                 = Ok structField).
    { unfold mapFormLeaf. destruct (String.eqb_spec (Get (Tag f) "form") "") as [|Hne];
        [done|].
      destruct Hcannot as [|Hpkg]; [done|]. apply String.eqb_neq in Hpkg.
      unfold CanSet, isRO, fieldFlag. rewrite Hpkg.
      destruct (Anonymous f); simpl; by rewrite ?orb_true_r. }
    destruct (Typ f); try done; [| |destruct (Anonymous f); [done|]]; congruence. }
  subst new.
  apply mapFormFields_before in Hout as [_ Hlt].
  rewrite Hlt by lia.
  unfold Field in Hsf. destruct (vs1 !! i) as [x|] eqn:E; [|done]. injection Hsf as ->.
  rewrite list_lookup_insert_eq by (by apply lookup_lt_Some in E).
  rewrite <- E. eapply mapFormFields_after; [exact Hfirst|]. simpl. lia.
Qed.

Lemma mapForm_keeps_field_witness :
  [VString "My Title"; VString ""; VString ""] !! 2%nat
  = [VString ""; VString ""; VString ""] !! 2%nat.
Proof.
  apply (mapForm_keeps_field "Draft"
           [mkField "Title" "" tString [("form", "title")] false;
            mkField "Note" "" tString [] false;
            mkField "owner" "binding" tString [("form", "owner")] false]
           [VString ""; VString ""; VString ""]
           [VString "My Title"; VString ""; VString ""] 2
           (mkField "owner" "binding" tString [("form", "owner")] false) flagNone
           {[ "title" := ["My Title"]; "owner" := ["root"] ]} ∅ []).
  - reflexivity.
  - reflexivity.
  - right. discriminate.
  - reflexivity.
Defined.

(** ** Uploaded files *)

(** X12: a settable field whose key is no key of the form and holds one or
    more files in the file map.  A field of type slice of file handles gets
    all the handles in order, a field of type file handle the first one, and
    a field of any other type is left as it was. *)
Theorem mapFormLeaf_file typeField structField fl form formfile errors key h rest :
  Get (Tag typeField) "form" = key →
  key ≠ "" →
  CanSet fl = true →
  form !! key = None →
  formfile !! key = Some (h :: rest) →
  (Typ typeField = TSlice fhType →
   mapFormLeaf typeField structField fl form formfile errors
   = Ok (VSlice (map ValueOfFile (h :: rest)))) ∧
  (Typ typeField = fhType →
   mapFormLeaf typeField structField fl form formfile errors = Ok (ValueOfFile h)) ∧
  (Typ typeField ≠ TSlice fhType → Typ typeField ≠ fhType →
   mapFormLeaf typeField structField fl form formfile errors = Ok structField).
Proof.
  intros Hkey Hne Hset Hform Hfile. unfold mapFormLeaf.
  rewrite Hkey, Hform, Hfile, Hset. apply String.eqb_neq in Hne. rewrite Hne.
  cbn [negb]. split; [|split].
  - intros ->. reflexivity.
  - intros ->. reflexivity.
  - intros Hs Hp.
    destruct (_ && _ && _) eqn:E.
    + apply andb_true_iff in E as [Ek E]. apply andb_true_iff in Ek as [Ek _].
      destruct (Typ typeField) as [k|e|e|n fs]; try done.
      simpl in E. apply rtype_eqb_eq in E. by subst e.
    + destruct (rtype_eqb (Typ typeField) fhType) eqn:E'; [|done].
      by apply rtype_eqb_eq in E'.
Qed.

Lemma mapFormLeaf_file_witness :
  (Typ BlogPost_HeaderImage = TSlice fhType →
   mapFormLeaf BlogPost_HeaderImage VNilPtr flagNone ∅
     {[ "headerImage" := [mkFileHeader "a.png"; mkFileHeader "b.png"] ]} []
   = Ok (VSlice (map ValueOfFile [mkFileHeader "a.png"; mkFileHeader "b.png"]))) ∧
  (Typ BlogPost_HeaderImage = fhType →
   mapFormLeaf BlogPost_HeaderImage VNilPtr flagNone ∅
     {[ "headerImage" := [mkFileHeader "a.png"; mkFileHeader "b.png"] ]} []
   = Ok (ValueOfFile (mkFileHeader "a.png"))) ∧
  (Typ BlogPost_HeaderImage ≠ TSlice fhType → Typ BlogPost_HeaderImage ≠ fhType →
   mapFormLeaf BlogPost_HeaderImage VNilPtr flagNone ∅
     {[ "headerImage" := [mkFileHeader "a.png"; mkFileHeader "b.png"] ]} []
   = Ok VNilPtr).
Proof.
  apply (mapFormLeaf_file BlogPost_HeaderImage VNilPtr flagNone ∅
           {[ "headerImage" := [mkFileHeader "a.png"; mkFileHeader "b.png"] ]} []
           "headerImage" (mkFileHeader "a.png") [mkFileHeader "b.png"]).
  - reflexivity.
  - discriminate.
  - reflexivity.
  - reflexivity.
  - reflexivity.
Defined.

(** ** The coercion sets the field or reports *)



(** ** What the handlers map into the context *)

Lemma validateAndMap_inv validators typ obj errors v out :
  validateAndMap validators typ obj errors = Ok (v, out) →
  obj = VPtr v ∧
  ∃ validated, Validate validators (TPtr typ) (VPtr v) = Ok validated ∧
               out = (errors ++ validated)%list.
Proof.
  unfold validateAndMap. intros H.
  apply bind_Ok_inv in H as (validated & Hval & H).
  destruct obj; try done. injection H as -> <-. eauto.
Qed.

(** X14: what Form maps into the context.  The struct is what the walk
    leaves of a fresh struct, over the form of the request and no files; the
    list is the deserialization error of ParseForm, if it failed, followed by
    what Validate reports on that struct.  Whatever the walk appended is not
    in it. *)
Theorem Form_outcome validators typ req v errors :
  Form validators typ req = Ok (v, errors) →
  mapForm (TPtr typ) (New typ) flagNone (ReqForm req) ∅ [] = Ok (VPtr v) ∧
  ∃ validated,
    Validate validators (TPtr typ) (VPtr v) = Ok validated ∧
    errors = (match ParseForm req with
              | Some parseErr => [mkError [] DeserializationError parseErr]
              | None => []
              end ++ validated)%list.
Proof.
  unfold Form. intros H.
  apply bind_Ok_inv in H as (? & _ & H).
  apply bind_Ok_inv in H as (formStruct & Hmap & H).
  apply validateAndMap_inv in H as (-> & validated & Hval & ->).
  split.
  - rewrite <- Hmap. by apply mapForm_agree.
  - exists validated. split; [done|]. by destruct (ParseForm req).
Qed.

Lemma Form_outcome_witness :
  mapForm (TPtr Post) (New Post) flagNone
    (ReqForm (mkRequest {[ "content" := ["Hello"] ]} (Some "invalid URL escape") None
                (inl "not multipart"))) ∅ []
  = Ok (VPtr (VStruct [VString ""; VString "Hello"])) ∧
  ∃ validated,
    Validate noValidators (TPtr Post) (VPtr (VStruct [VString ""; VString "Hello"]))
    = Ok validated ∧
    [mkError [] DeserializationError "invalid URL escape";
     mkError ["Title"] RequiredError "Required"]
    = (match ParseForm (mkRequest {[ "content" := ["Hello"] ]} (Some "invalid URL escape")
                          None (inl "not multipart")) with
       | Some parseErr => [mkError [] DeserializationError parseErr]
       | None => []
       end ++ validated)%list.
Proof.
  apply (Form_outcome noValidators Post
           (mkRequest {[ "content" := ["Hello"] ]} (Some "invalid URL escape") None
              (inl "not multipart"))).
  reflexivity.
Defined.



(** X16: a JSON request without a body, and one whose body is empty (the
    decoder returns io.EOF and leaves the struct alone), is no
    deserialization error: the handler maps the zero struct and exactly
    what Validate reports on it. *)
Theorem Json_empty_body validators typ req :
  Kind typ ≠ reflect.Ptr →
  Body req = None ∨
  (∃ decode, Body req = Some decode ∧ decode typ (Zero typ) = (Zero typ, Some EOF)) →
  Json validators typ req
  = (λ validated, (Zero typ, validated)) <$> Validate validators (TPtr typ) (VPtr (Zero typ)).
Proof.
  intros Hk Hbody. unfold Json, ensureNotPointer.
  rewrite bool_decide_eq_false_2 by done. cbn [mbind Result_bind].
  assert (Hrun : validateAndMap validators typ (New typ) []
                 = (λ validated, (Zero typ, validated))
                   <$> Validate validators (TPtr typ) (VPtr (Zero typ))).
  { unfold validateAndMap, New. by destruct (Validate _ _ _). }
  destruct Hbody as [->|(decode & -> & Hd)]; [done|]. by rewrite Hd.
Qed.

Lemma Json_empty_body_witness :
  Json noValidators Post (mkHttpRequest "POST" "application/json"
                            (Some (λ _ v, (v, Some EOF))) (formRequest ∅))
  = (λ validated, (Zero Post, validated))
    <$> Validate noValidators (TPtr Post) (VPtr (Zero Post)).
Proof.
  apply (Json_empty_body noValidators Post
           (mkHttpRequest "POST" "application/json" (Some (λ _ v, (v, Some EOF)))
              (formRequest ∅))).
  - discriminate.
  - right. by eexists.
Defined.

(** ** The answer of the error handler *)

Lemma Has_spec errors class :
  Has errors class = true ↔ ∃ e, e ∈ errors ∧ Class_ e = class.
Proof.
  unfold Has. rewrite existsb_exists. split.
  - intros (e & Hin & He). exists e. split; [by apply list_elem_of_In|].
    by apply bool_decide_eq_true in He.
  - intros (e & Hin & He). exists e. split; [by apply list_elem_of_In|].
    by apply bool_decide_eq_true.
Qed.

Lemma Has_false errors class :
  Has errors class = false ↔ ∀ e, e ∈ errors → Class_ e ≠ class.
Proof.
  rewrite <- not_true_iff_false, Has_spec. split.
  - intros Hno e Hin He. apply Hno. by exists e.
  - intros Hall (e & Hin & He). by apply (Hall e).
Qed.

(** X17: ErrorHandler writes nothing exactly for the empty list.  For any
    other list it sets the JSON content type and writes the list; the status
    is 400 exactly when the list holds a deserialization error, 415 exactly
    when it holds none and holds a content-type error, and 422 exactly when
    it holds neither. *)
Theorem ErrorHandler_status errs :
  (ErrorHandler errs = None ↔ errs = []) ∧
  ∀ resp, ErrorHandler errs = Some resp →
    RespContentType resp = "application/json; charset=utf-8" ∧
    Written resp = errs ∧
    (StatusCode resp = 400 ↔ ∃ e, e ∈ errs ∧ Class_ e = DeserializationError) ∧
    (StatusCode resp = 415 ↔
       (∀ e, e ∈ errs → Class_ e ≠ DeserializationError) ∧
       ∃ e, e ∈ errs ∧ Class_ e = ContentTypeError) ∧
    (StatusCode resp = 422 ↔
       (∀ e, e ∈ errs → Class_ e ≠ DeserializationError) ∧
       (∀ e, e ∈ errs → Class_ e ≠ ContentTypeError)).
Proof.
  unfold ErrorHandler. split.
  - destruct errs; simpl; by split.
  - intros resp H. destruct (0 <? length errs)%nat; [|done].
    injection H as <-. cbn [RespContentType Written StatusCode].
    split; [done|]. split; [done|].
    rewrite <- !Has_spec, <- !Has_false.
    destruct (Has errs DeserializationError), (Has errs ContentTypeError);
      unfold StatusBadRequest, StatusUnsupportedMediaType, StatusUnprocessableEntity;
      intuition congruence.
Qed.

(** ** The dispatch on the content type *)

(** X18: a request that must declare its content (the method is POST or PUT,
    or the header is set) and whose Content-Type holds none of the texts
    form-urlencoded, multipart/form-data and json.  Bind runs no handler,
    so it binds nothing and cannot panic, whatever the model; the list is
    one content-type error without a path, and the answer is 415. *)
Theorem Bind_unsupported_content_type validators typ req :
  Method req = "POST" ∨ Method req = "PUT" ∨ ContentType req ≠ "" →
  Contains (ContentType req) "form-urlencoded" = false →
  Contains (ContentType req) "multipart/form-data" = false →
  Contains (ContentType req) "json" = false →
  let errors :=
    [mkError [] ContentTypeError
       (if String.eqb (ContentType req) "" then "Empty Content-Type"
        else "Unsupported Content-Type")] in
  Bind validators typ req
  = Ok ((None, errors), Some (mkResponse "application/json; charset=utf-8" 415 errors)).
Proof.
  intros Hmust Hform Hmulti Hjson errors. unfold Bind, bind.
  rewrite Hform, Hmulti, Hjson.
  replace (String.eqb (Method req) "POST" || String.eqb (Method req) "PUT"
           || negb (String.eqb (ContentType req) "")) with true.
  - subst errors. by destruct (String.eqb (ContentType req) "").
  - symmetry. destruct Hmust as [->|[->|Hct]]; [done|done|].
    apply String.eqb_neq in Hct. rewrite Hct. by rewrite orb_true_r.
Qed.

Lemma Bind_unsupported_content_type_witness :
  let errors := [mkError [] ContentTypeError
       (if String.eqb (ContentType (mkHttpRequest "POST" "text/plain" None (formRequest ∅))) ""
        then "Empty Content-Type" else "Unsupported Content-Type")] in
  Bind noValidators (TPtr Post) (mkHttpRequest "POST" "text/plain" None (formRequest ∅))
  = Ok ((None, errors), Some (mkResponse "application/json; charset=utf-8" 415 errors)).
Proof.
  apply (Bind_unsupported_content_type noValidators (TPtr Post)
           (mkHttpRequest "POST" "text/plain" None (formRequest ∅))).
  - by left.
  - reflexivity.
  - reflexivity.
  - reflexivity.
Defined.

(** X19: a request whose Content-Type holds the text form-urlencoded and
    whose form fails to parse.  Where Bind returns, the list of the context
    starts with the deserialization error of ParseForm and goes on with what
    Validate reports on the bound struct, and the answer is 400 with that
    list, whatever validation found. *)
Theorem Bind_form_parse_error validators typ req parseErr ctx resp :
  Contains (ContentType req) "form-urlencoded" = true →
  ParseForm (Req req) = Some parseErr →
  Bind validators typ req = Ok (ctx, resp) →
  ∃ v validated,
    Validate validators (TPtr typ) (VPtr v) = Ok validated ∧
    ctx = (Some v, mkError [] DeserializationError parseErr :: validated) ∧
    resp = Some (mkResponse "application/json; charset=utf-8" 400 ctx.2).
Proof.
  intros Hct Hparse H. unfold Bind in H.
  apply bind_Ok_inv in H as (ctx' & Hbind & [= <- <-]).
  assert (Hform : invoke (Form validators typ (Req req)) = Ok ctx').
  { unfold bind in Hbind. rewrite Hct in Hbind. by destruct (_ || _). }
  unfold invoke in Hform.
  apply bind_Ok_inv in Hform as ([v errors] & Hform & [= <-]).
  apply Form_errors in Hform as (validated & Hval & ->). rewrite Hparse.
  exists v, validated. split; [done|]. split; [done|].
  reflexivity.
Qed.

Lemma Bind_form_parse_error_witness :
  ∃ v validated,
    Validate noValidators (TPtr Post) (VPtr v) = Ok validated ∧
    (Some (VStruct [VString "Hi"; VString ""]),
     [mkError [] DeserializationError "invalid semicolon separator in query"])
    = (Some v, mkError [] DeserializationError "invalid semicolon separator in query"
               :: validated) ∧
    Some (mkResponse "application/json; charset=utf-8" 400
            [mkError [] DeserializationError "invalid semicolon separator in query"])
    = Some (mkResponse "application/json; charset=utf-8" 400
              (Some (VStruct [VString "Hi"; VString ""]),
               [mkError [] DeserializationError "invalid semicolon separator in query"]).2).
Proof.
  apply (Bind_form_parse_error noValidators Post
           (mkHttpRequest "GET" "application/x-www-form-urlencoded" None
              (mkRequest {[ "title" := ["Hi"] ]}
                 (Some "invalid semicolon separator in query") None (inl "not multipart")))
           "invalid semicolon separator in query").
  - reflexivity.
  - reflexivity.
  - reflexivity.
Defined.

(** ** A form that parses, validated without hooks *)

Lemma validateElems_rule_errors validators elemT elems errors out :
  (∀ t, validators t = None) →
  Forall (λ e, isRuleError e = true) errors →
  validateElems validators elemT elems errors = Ok out →
  Forall (λ e, isRuleError e = true) out.
Proof.
  intros Hnone. revert errors.
  induction elems as [|e rest IH]; intros errors HQ H; simpl in H.
  - by injection H as <-.
  - apply bind_Ok_inv in H as (e1 & H1 & H).
    unfold callValidator in H. rewrite Hnone in H.
    eapply IH; [|exact H].
    destruct (validateStruct_rule_errors_both elemT) as [Ht _]. by eapply Ht.
Qed.

Lemma Validate_rule_errors validators t v out :
  (∀ t, validators t = None) →
  Validate validators t v = Ok out →
  Forall (λ e, isRuleError e = true) out.
Proof.
  intros Hnone H. unfold Validate in H.
  assert (Hstruct : ∀ t' v',
    (errors ← validateStruct [] t' v'; Ok (callValidator validators t' v' errors)) = Ok out →
    Forall (λ e, isRuleError e = true) out).
  { intros t' v' H'. apply bind_Ok_inv in H' as (e1 & H1 & [= <-]).
    unfold callValidator. rewrite Hnone.
    destruct (validateStruct_rule_errors_both t') as [Ht _].
    eapply Ht; [|exact H1]. constructor. }
  assert (Helems : ∀ elemT elems,
    validateElems validators elemT elems [] = Ok out →
    Forall (λ e, isRuleError e = true) out).
  { intros elemT elems H'. eapply validateElems_rule_errors; [done| |exact H'].
    constructor. }
  repeat case_match; first [exact (Helems _ _ H) | exact (Hstruct _ _ H)].
Qed.

Lemma rule_errors_classes (errors : Errors) :
  Forall (λ e, isRuleError e = true) errors →
  Has errors DeserializationError = false ∧ Has errors ContentTypeError = false.
Proof.
  intros HQ. rewrite !Has_false. rewrite Forall_forall in HQ.
  split; intros e Hin Hc; specialize (HQ e Hin); unfold isRuleError in HQ;
    destruct (FieldNames e) as [|? [|]]; try done;
    apply bool_decide_eq_true in HQ; rewrite Hc in HQ;
    repeat (apply elem_of_cons in HQ as [HQ|HQ]; [done|]); by apply elem_of_nil in HQ.
Qed.

(** X22: a request that Bind hands to Form (its Content-Type holds the text
    form-urlencoded, or it is neither POST nor PUT and declares no content
    type) and whose form parses, for a model of which no type has a
    Validate method.  Where Bind returns, every error of the context is an
    error of a rule, and the answer is nothing if there is none and 422
    with the list otherwise: never 400 and never 415. *)
Theorem Bind_form_validation validators typ req ctx resp :
  Contains (ContentType req) "form-urlencoded" = true ∨
  (Method req ≠ "POST" ∧ Method req ≠ "PUT" ∧ ContentType req = "") →
  ParseForm (Req req) = None →
  (∀ t, validators t = None) →
  Bind validators typ req = Ok (ctx, resp) →
  Forall (λ e, isRuleError e = true) ctx.2 ∧
  resp = match ctx.2 with
         | [] => None
         | _ => Some (mkResponse "application/json; charset=utf-8" 422 ctx.2)
         end.
Proof.
  intros Hct Hparse Hnone H. unfold Bind in H.
  apply bind_Ok_inv in H as (ctx' & Hbind & [= <- <-]).
  assert (Hform : invoke (Form validators typ (Req req)) = Ok ctx').
  { unfold bind in Hbind. destruct Hct as [Hct|(Hpost & Hput & Hempty)].
    - rewrite Hct in Hbind. by destruct (_ || _).
    - apply String.eqb_neq in Hpost, Hput. by rewrite Hpost, Hput, Hempty in Hbind. }
  unfold invoke in Hform.
  apply bind_Ok_inv in Hform as ([v errors] & Hform & [= <-]).
  apply Form_errors in Hform as (validated & Hval & ->). rewrite Hparse.
  apply Validate_rule_errors in Hval; [|done]. cbn [snd app].
  split; [done|].
  destruct (rule_errors_classes validated Hval) as [Hd Hc].
  unfold ErrorHandler. rewrite Hd, Hc. by destruct validated.
Qed.

Lemma Bind_form_validation_witness :
  Forall (λ e, isRuleError e = true)
    (Some (VStruct [VString ""; VString "Hello"]),
     [mkError ["Title"] RequiredError "Required"]).2 ∧
  Some (mkResponse "application/json; charset=utf-8" 422
          [mkError ["Title"] RequiredError "Required"])
  = match (Some (VStruct [VString ""; VString "Hello"]),
           [mkError ["Title"] RequiredError "Required"]).2 with
    | [] => None
    | _ => Some (mkResponse "application/json; charset=utf-8" 422
                   (Some (VStruct [VString ""; VString "Hello"]),
                    [mkError ["Title"] RequiredError "Required"]).2)
    end.
Proof.
  apply (Bind_form_validation noValidators Post
           (mkHttpRequest "GET" "" None (formRequest {[ "content" := ["Hello"] ]}))).
  - right. by repeat split.
  - reflexivity.
  - reflexivity.
  - reflexivity.
Defined.

(** ** Witnesses of the theorems on the entry points *)


